(** * console_chatbot: session memory, retriever slot and conversation turn

    A shallow embedding of [utils.py], [rag_core.py] and the loop body of
    [main.py].  Python objects that are mutated in place (the chat history
    objects kept in the module-level [store]) live in an explicit heap, the
    files under [chat_history/] in an explicit disk, and everything an
    external service decides (document parsers, the embedding service, the
    chat model, whether a write to disk goes through) is an argument of the
    function that calls it. *)

From stdpp Require Import gmap strings list pretty.

Set Warnings "-register-all".

(** ** Python values and exceptions *)

Module Py.

(** The exception classes the program can meet.  All of them derive from
    [Exception]; [ImportError] is the only one a handler singles out. *)
Inductive exn_class :=
  | ImportError | KeyError | TypeError | ValueError | OSError | RuntimeError.

(** An exception object: its class and [str(e)]. *)
Record exn := mk_exn { exn_cls : exn_class; exn_str : string }.

Inductive result (A : Type) :=
  | Ok (a : A)
  | Raise (e : exn).
Arguments Ok {A} a.
Arguments Raise {A} e.

(** Sequencing: the first exception raised ends the computation. *)
#[global] Instance result_ret : MRet result := λ A a, Ok a.
#[global] Instance result_bind : MBind result := λ A B k r,
  match r with
  | Ok a => k a
  | Raise e => Raise e
  end.

(** What [json.load] hands back: [None], [bool], [int], [float] (kept as
    its binary64 bit pattern; the program never computes with a number),
    [str], [list] and [dict] with string keys. *)
Inductive json :=
  | JNull
  | JBool (b : bool)
  | JInt (n : Z)
  | JFloat (bits : N)
  | JStr (s : string)
  | JArr (items : list json)
  | JObj (fields : gmap string json).

(** [list(s)] for a string: its characters, each a string of length one. *)
Fixpoint chars (s : string) : list string :=
  match s with
  | EmptyString => []
  | String c s' => String c EmptyString :: chars s'
  end.

(** [for x in v]: lists yield their items, dicts their keys, strings their
    characters; anything else is not iterable.  The keys of a dict come in
    the order of the map, not in insertion order; the program only ever
    fails on the first of them. *)
Definition iter (v : json) : result (list json) :=
  match v with
  | JArr items => Ok items
  | JObj fields => Ok (JStr <$> (map_to_list fields).*1)
  | JStr s => Ok (JStr <$> chars s)
  | _ => Raise (mk_exn TypeError "object is not iterable")
  end.

(** [v[k]] for a string key [k]. *)
Definition getitem (v : json) (k : string) : result json :=
  match v with
  | JObj fields =>
      match fields !! k with
      | Some x => Ok x
      | None => Raise (mk_exn KeyError k)
      end
  | JArr _ => Raise (mk_exn TypeError "list indices must be integers or slices, not str")
  | JStr _ => Raise (mk_exn TypeError "string indices must be integers, not 'str'")
  | _ => Raise (mk_exn TypeError "object is not subscriptable")
  end.

(** [v == s] for a string literal [s]. *)
Definition eq_str (v : json) (s : string) : bool :=
  match v with
  | JStr t => String.eqb t s
  | _ => false
  end.

(** [s.startswith(p)] *)
Fixpoint startswith (s p : string) {struct p} : bool :=
  match p with
  | EmptyString => true
  | String a p' =>
      match s with
      | EmptyString => false
      | String b s' => Ascii.eqb a b && startswith s' p'
      end
  end.

(** [s.endswith(p)]: [p] is one of the suffixes of [s]. *)
Fixpoint endswith (s p : string) : bool :=
  String.eqb s p ||
  match s with
  | EmptyString => false
  | String _ s' => endswith s' p
  end.

(** [p in s] for strings: [p] starts at some position of [s]. *)
Fixpoint contains (s p : string) : bool :=
  startswith s p ||
  match s with
  | EmptyString => false
  | String _ s' => contains s' p
  end.

(** [sep.join(parts)] *)
Fixpoint join (sep : string) (parts : list string) : string :=
  match parts with
  | [] => ""
  | [p] => p
  | p :: rest => p +:+ sep +:+ join sep rest
  end.

(** [s * n] *)
Fixpoint mul (s : string) (n : nat) : string :=
  match n with
  | O => ""
  | S n' => s +:+ mul s n'
  end.

(** [os.path.join(a, b)] on a POSIX system: an absolute [b] wins. *)
Definition path_join (a b : string) : string :=
  if startswith b "/" then b
  else if String.eqb a "" || endswith a "/" then a +:+ b
  else a +:+ "/" +:+ b.

(** Strings are sequences of code points below 256.  [c.lower()] for one
    of them: the letters A-Z and the accented capitals of that range move
    up by 32; the multiplication sign between them does not. *)
Definition lower_char (c : Ascii.ascii) : Ascii.ascii :=
  let n := Ascii.nat_of_ascii c in
  if (65 <=? n) && (n <=? 90) then Ascii.ascii_of_nat (n + 32)
  else if (192 <=? n) && (n <=? 222) && negb (n =? 215)
  then Ascii.ascii_of_nat (n + 32)
  else c.

(** [s.lower()] *)
Fixpoint lower (s : string) : string :=
  match s with
  | EmptyString => EmptyString
  | String c s' => String (lower_char c) (lower s')
  end.

(** [c.isspace()] below 256: tab to carriage return, the four separators
    28 to 31, space, next line and no-break space. *)
Definition isspace (c : Ascii.ascii) : bool :=
  let n := Ascii.nat_of_ascii c in
  (9 <=? n) && (n <=? 13) || (28 <=? n) && (n <=? 32)
  || (n =? 133) || (n =? 160).

(** [s.lstrip()], [s.rstrip()], [s.strip()] *)
Fixpoint lstrip (s : string) : string :=
  match s with
  | EmptyString => EmptyString
  | String c s' => if isspace c then lstrip s' else s
  end.

Definition rstrip (s : string) : string := String.rev (lstrip (String.rev s)).

Definition strip (s : string) : string := rstrip (lstrip s).

(** [s.split(" ", 1)]: one piece when [s] has no space, otherwise what
    comes before the first space and what comes after it. *)
Fixpoint split_once (s : string) : list string :=
  match s with
  | EmptyString => [EmptyString]
  | String c s' =>
      if Ascii.eqb c (Ascii.ascii_of_nat 32) then [EmptyString; s']
      else match split_once s' with
           | before :: after => String c before :: after
           | [] => [String c EmptyString]
           end
  end.

(** [pieces[-1]] of a list that is not empty. *)
Definition last_piece (pieces : list string) : string :=
  default EmptyString (last pieces).

End Py.

Import Py.


(** ** The library objects the program builds ([langchain_core]) *)

Module LangChain.

(** What a message can hold as its content: a string, or a list whose
    items are strings or dicts. *)
Inductive ContentItem :=
  | ItemStr (s : string)
  | ItemDict (fields : gmap string json).

Inductive Content :=
  | Text (s : string)
  | Blocks (items : list ContentItem).

(** The two message classes the program constructs. *)
Inductive Message :=
  | HumanMessage (content : Content)
  | AIMessage (content : Content).

(** [msg.type] *)
Definition type (msg : Message) : string :=
  match msg with
  | HumanMessage _ => "human"
  | AIMessage _ => "ai"
  end.

(** [msg.content] *)
Definition content (msg : Message) : Content :=
  match msg with
  | HumanMessage c => c
  | AIMessage c => c
  end.

(** The content as the value [json.dump] is given. *)
Definition item_json (i : ContentItem) : json :=
  match i with
  | ItemStr s => JStr s
  | ItemDict fields => JObj fields
  end.

Definition content_json (c : Content) : json :=
  match c with
  | Text s => JStr s
  | Blocks items => JArr (item_json <$> items)
  end.

(** The content a value read from JSON makes, when a message can hold it:
    numbers, booleans, [None], dicts and lists with any such item cannot
    be held. *)
Definition as_item (v : json) : option ContentItem :=
  match v with
  | JStr s => Some (ItemStr s)
  | JObj fields => Some (ItemDict fields)
  | _ => None
  end.

Definition as_content (v : json) : option Content :=
  match v with
  | JStr s => Some (Text s)
  | JArr items => Blocks <$> mapM as_item items
  | _ => None
  end.

(** [HumanMessage(content=v)] and [AIMessage(content=v)]: the class
    validates the content and raises [ValidationError], a [ValueError],
    when a message cannot hold it. *)
Definition new_message (cls : Content → Message) (v : json) : result Message :=
  match as_content v with
  | Some c => Ok (cls c)
  | None => Raise (mk_exn ValueError "ValidationError: content")
  end.

(** A retrieved chunk. *)
Record Document := mk_Document {
  page_content : string;
  metadata : list (string * string)
}.

(** What a prompt template renders: one system message, then chat
    messages. *)
Inductive PromptMessage :=
  | SystemMessage (text : string)
  | ChatMessage (msg : Message).

End LangChain.

Import LangChain.

(** ** utils.py *)

Module utils.

Definition SESSION_HISTORY_DIR : string := "chat_history".

(** A retriever object: [DummyRetriever()] or the retriever of a vector
    store, whose answer to a query is the store's business. *)
Inductive Retriever :=
  | DummyRetriever
  | VectorStoreRetriever (search : string → result (list Document)).

(** [retriever.invoke(query)]; [DummyRetriever.invoke] returns [[]]. *)
Definition invoke (retriever : Retriever) (query : string)
    : result (list Document) :=
  match retriever with
  | DummyRetriever => Ok []
  | VectorStoreRetriever search => search query
  end.

(** A file as [open] and [json.load] see it: opening or reading it
    raises, its text is not JSON, or its text parses to [data].  What
    [json.dump] writes, [json.load] reads back as the same value. *)
Inductive file :=
  | Unreadable
  | Malformed
  | Json (data : json).

(** Address of an [InMemoryChatMessageHistory] object. *)
Definition loc := nat.

(** The state of the process and of its disk.
    - [store]: the module-level dict, session id to history object;
    - [heap]: the [messages] list of every history object created;
    - [disk]: the files, by path as written (two paths that name one
      file are not identified);
    - [retriever_holder]: the [retriever] attribute of the one
      [RetrieverHolder] made by [main];
    - [stdout]: what has been printed, one entry per [print]. *)
Record World := mk_World {
  store : gmap string loc;
  heap : list (list Message);
  disk : gmap string file;
  retriever_holder : Retriever;
  stdout : list string
}.

Definition set_store (f : gmap string loc → gmap string loc) (w : World) :=
  mk_World (f (store w)) (heap w) (disk w) (retriever_holder w) (stdout w).
Definition set_heap (f : list (list Message) → list (list Message)) (w : World) :=
  mk_World (store w) (f (heap w)) (disk w) (retriever_holder w) (stdout w).
Definition set_disk (f : gmap string file → gmap string file) (w : World) :=
  mk_World (store w) (heap w) (f (disk w)) (retriever_holder w) (stdout w).
Definition set_retriever (r : Retriever) (w : World) :=
  mk_World (store w) (heap w) (disk w) r (stdout w).

(** [print(line)] *)
Definition print (line : string) (w : World) :=
  mk_World (store w) (heap w) (disk w) (retriever_holder w) (stdout w ++ [line]).

(** [history.messages] of the object at [l]. *)
Definition messages (w : World) (l : loc) : list Message :=
  default [] (heap w !! l).

(** [history.add_messages(msgs)] on the object at [l]. *)
Definition add_messages (l : loc) (msgs : list Message) (w : World) : World :=
  set_heap (λ h, <[l := messages w l ++ msgs]> h) w.

(** [os.path.join(SESSION_HISTORY_DIR, f"{session_id}.json")] *)
Definition history_file (session_id : string) : string :=
  path_join SESSION_HISTORY_DIR (session_id +:+ ".json").

(** The body of the [for] loop of [get_session_history]: one entry of the
    file, replayed onto the messages read so far. *)
Definition replay_entry (message_data : json) (history : list Message)
    : result (list Message) :=
  ty ← getitem message_data "type";
  if eq_str ty "human" then
    c ← getitem message_data "content";
    msg ← new_message HumanMessage c;
    mret (history ++ [msg])
  else
    ty' ← getitem message_data "type";
    if eq_str ty' "ai" then
      c ← getitem message_data "content";
      msg ← new_message AIMessage c;
      mret (history ++ [msg])
    else mret history.

(** The [for] loop: the history object is filled in place, so what was
    added before an exception stays added. *)
Fixpoint replay (data : list json) (history : list Message)
    : list Message * option exn :=
  match data with
  | [] => (history, None)
  | message_data :: rest =>
      match replay_entry message_data history with
      | Ok history' => replay rest history'
      | Raise e => (history, Some e)
      end
  end.

(** The [with open(...)] block inside the [try]. *)
Definition load_history (f : file) (history : list Message)
    : list Message * option exn :=
  match f with
  | Unreadable => (history, Some (mk_exn OSError "cannot read file"))
  | Malformed => (history, Some (mk_exn ValueError "JSONDecodeError"))
  | Json data =>
      match iter data with
      | Ok entries => replay entries history
      | Raise e => (history, Some e)
      end
  end.

(** [get_session_history(session_id)]: the world afterwards and the
    history object returned. *)
Definition get_session_history (session_id : string) (w : World)
    : World * loc :=
  match store w !! session_id with
  | None =>
      let history := [] in
      let history :=
        match disk w !! history_file session_id with
        | Some f =>
            (* try: ... except Exception: pass *)
            fst (load_history f history)
        | None => history
        end in
      let l := length (heap w) in
      (set_store (λ s, <[session_id := l]> s)
         (set_heap (λ h, h ++ [history]) w), l)
  | Some l => (w, l)
  end.

(** How the write inside [save_session_history] goes: it completes,
    [open] raises, or [json.dump] raises after the file was truncated. *)
Inductive write_outcome :=
  | Written
  | OpenFails (e : exn)
  | DumpFails (e : exn).

(** [{"type": msg.type, "content": msg.content}] *)
Definition serialize (msg : Message) : json :=
  JObj {[ "type" := JStr (type msg); "content" := content_json (content msg) ]}.

(** [save_session_history(session_id)] *)
Definition save_session_history (wr : write_outcome) (session_id : string)
    (w : World) : World :=
  match store w !! session_id with
  | Some history =>
      let history_file := history_file session_id in
      let serializable_history := serialize <$> messages w history in
      match wr with
      | Written =>
          set_disk (λ d, <[history_file := Json (JArr serializable_history)]> d) w
      | OpenFails e =>
          print ("Error saving history to file: " +:+ exn_str e) w
      | DumpFails e =>
          print ("Error saving history to file: " +:+ exn_str e)
            (set_disk (λ d, <[history_file := Malformed]> d) w)
      end
  | None => w
  end.

End utils.

Import utils.

(** ** rag_core.py *)

Module rag_core.

(** The document loader classes. *)
Inductive loader_class :=
  | PyPDFLoader
  | TextLoader
  | UnstructuredWordDocumentLoader
  | CSVLoader.

(** The collaborators of ingestion, each free to raise:
    - [load cls path]: [cls(path).load()];
    - [split_documents size overlap docs]: the text splitter;
    - [embeddings]: constructing the embedding client;
    - [from_documents splits]: embedding every chunk and building the
      vector index, returned as its search function. *)
Record Services := mk_Services {
  load : loader_class → string → result (list Document);
  split_documents : nat → nat → list Document → result (list Document);
  embeddings : result unit;
  from_documents : list Document → result (string → result (list Document))
}.

Definition nl : string := String (Ascii.ascii_of_nat 10) EmptyString.

(** The [if]/[elif] chain that picks the loader; [None] is the [else]. *)
Definition select_loader (file_path : string) : option loader_class :=
  if endswith file_path ".pdf" then Some PyPDFLoader
  else if endswith file_path ".txt" then Some TextLoader
  else if endswith file_path ".docx" then Some UnstructuredWordDocumentLoader
  else if endswith file_path ".csv" then Some CSVLoader
  else None.

(** The [try] body after a loader was chosen. *)
Definition process (svc : Services) (cls : loader_class) (file_path : string)
    (w : World) : World * result Retriever :=
  match load svc cls file_path with
  | Raise e => (w, Raise e)
  | Ok docs =>
      match split_documents svc 1000 200 docs with
      | Raise e => (w, Raise e)
      | Ok splits =>
          let w :=
            print ("Document split into " +:+ pretty (length splits)
                   +:+ " chunks.") w in
          match embeddings svc with
          | Raise e => (w, Raise e)
          | Ok _ =>
              match from_documents svc splits with
              | Raise e => (w, Raise e)
              | Ok search => (w, Ok (VectorStoreRetriever search))
              end
          end
      end
  end.

(** The [except ImportError] handler. *)
Definition on_import_error (e : exn) (file_path : string) (w : World) : World :=
  let w := print (nl +:+ "--- Dependency Missing Error ---") w in
  if contains (exn_str e) "PyPDFLoader"
     || endswith file_path ".pdf" || endswith file_path ".csv"
  then
    print "Please run: pip install pypdf"
      (print "To process PDF or CSV files, you likely need to install 'pypdf'." w)
  else if contains (exn_str e) "UnstructuredWordDocumentLoader"
          || endswith file_path ".docx"
  then
    print "Please run: pip install unstructured[docx]"
      (print "To process DOCX files, you need to install 'unstructured' and its dependencies." w)
  else
    print ("An ImportError occurred: " +:+ exn_str e +:+
           ". Check if you have all required document parser libraries installed.") w.

(** The [except Exception] handler. *)
Definition on_exception (e : exn) (w : World) : World :=
  let w := print ("An error occurred during document processing: " +:+ exn_str e) w in
  if contains (exn_str e) "Quota exceeded" then
    print "Please wait for your quota to reset or check your API usage/plan."
      (print "This often happens when processing many chunks (like a large CSV/PDF)."
         (print "NOTE: The document failed to load because the Gemini API quota for embeddings was exceeded."
            (print (nl +:+ "--- RAG MODE FAILED DUE TO QUOTA ---") w)))
  else w.

(** [load_and_process_document(file_path)]: a retriever, or [None]. *)
Definition load_and_process_document (svc : Services) (file_path : string)
    (w : World) : World * option Retriever :=
  let w := print ("Loading document from: " +:+ file_path +:+ "...") w in
  match select_loader file_path with
  | None =>
      (print "Error: Unsupported file format. Please use .txt, .pdf, .docx, or .csv" w,
       None)
  | Some cls =>
      match process svc cls file_path w with
      | (w, Ok retriever) => (w, Some retriever)
      | (w, Raise e) =>
          match exn_cls e with
          | ImportError => (on_import_error e file_path w, None)
          | _ => (on_exception e w, None)
          end
      end
  end.

(** [format_docs(docs)] *)
Definition format_docs (docs : list Document) : string :=
  join (nl +:+ nl) (page_content <$> docs).

(** [dynamic_retrieval(x)], reading the holder when it is called. *)
Definition dynamic_retrieval (question : string) (w : World) : result string :=
  docs ← invoke (retriever_holder w) question;
  mret (format_docs docs).

(** What [contextual_chain] hands to the prompt. *)
Record ChainInput := mk_ChainInput {
  question : string;
  history : list Message;
  context : string
}.

Definition system_text : string :=
  "You are a helpful assistant. Answer the user's question using the provided context if it is relevant. "
  +:+ "If the context is not sufficient or the question is general, use your general knowledge to answer."
  +:+ nl +:+ nl +:+ "Context:" +:+ nl.

(** [prompt]: system text with the context, the history, the question. *)
Definition prompt (x : ChainInput) : list PromptMessage :=
  SystemMessage (system_text +:+ context x)
    :: (ChatMessage <$> history x)
    ++ [ChatMessage (HumanMessage (Text (question x)))].

(** The chat model followed by [StrOutputParser]: the answer text, or an
    exception. *)
Definition ChatModel := list PromptMessage → result string.

(** [full_rag_chain = contextual_chain | prompt | llm | StrOutputParser()] *)
Definition full_rag_chain (llm : ChatModel) (question : string)
    (history : list Message) (w : World) : result string :=
  context ← dynamic_retrieval question w;
  llm (prompt (mk_ChainInput question history context)).

(** [conversational_rag_chain.invoke({"question": q}, session_id)].
    [RunnableWithMessageHistory] asks [get_session_history] for the
    history object, passes a copy of its messages as ["history"], runs
    the wrapped chain and, only when that returns, adds the input as a
    [HumanMessage] and the output as an [AIMessage] to the object. *)
Definition conversational_rag_chain (llm : ChatModel)
    (session_id question : string) (w : World) : World * result string :=
  let '(w, hist) := get_session_history session_id w in
  match full_rag_chain llm question (messages w hist) w with
  | Ok answer =>
      (add_messages hist
         [HumanMessage (Text question); AIMessage (Text answer)] w,
       Ok answer)
  | Raise e => (w, Raise e)
  end.

End rag_core.

Import rag_core.

(** ** main.py: the body of the loop *)

Module main.

(** The [/load] branch, from [os.path.exists] on. *)
Definition load_command (path_exists : string → bool) (svc : Services)
    (new_doc_path : string) (w : World) : World :=
  if negb (path_exists new_doc_path) then
    print ("File not found at: " +:+ new_doc_path
           +:+ ". Current RAG status remains unchanged.") w
  else
    let '(w, new_retriever) := load_and_process_document svc new_doc_path w in
    let w :=
      match new_retriever with
      | Some r =>
          print (nl +:+ "--- RAG MODE ACTIVATED ---" +:+ nl
                 +:+ "Successfully loaded " +:+ new_doc_path
                 +:+ ". You can now ask questions about this document.")
            (set_retriever r w)
      | None =>
          set_retriever DummyRetriever
            (print (nl +:+ "--- RAG MODE FAILED ---" +:+ nl
                    +:+ "Failed to load document at " +:+ new_doc_path
                    +:+ ". Reverting to general chat mode.") w)
      end in
    print (mul "-" 60) w.

(** The chat branch: the [try] around the chain and the save. *)
Definition chat_turn (llm : ChatModel) (wr : write_outcome)
    (session_id user_input : string) (w : World) : World :=
  match conversational_rag_chain llm session_id user_input w with
  | (w, Ok response) =>
      let w := print ("Gemini: " +:+ response) w in
      let w := save_session_history wr session_id w in
      print (mul "-" 60) w
  | (w, Raise e) =>
      print "Please try your question again or check your API key/network connection."
        (print ("An error occurred during chat: " +:+ exn_str e) w)
  end.

(** The [quit]/[exit] branch. *)
Definition quit_command (wr : write_outcome) (session_id : string)
    (w : World) : World :=
  print "Exiting..." (save_session_history wr session_id w).

(** What [main] prints before its loop. *)
Definition banner : list string :=
  [ mul "=" 60;
    "--- Gemini 2.5 Flash RAG Chatbot ---";
    "Welcome! This chatbot can answer general questions or questions based on your documents.";
    mul "=" 60;
    "To get started, here are the commands you can use:";
    " - Type your question for general chat.";
    " - Type `/load <path/to/your/file.pdf>` to activate RAG mode.";
    " - Type `quit` or `exit` to end the session.";
    mul "-" 60;
    "Chatbot is ready. Starting conversation." ].

(** The world [main] enters its loop in, given what is on disk: an empty
    [store], a holder with a [DummyRetriever()], the banner printed. *)
Definition startup (d : gmap string file) : World :=
  mk_World ∅ [] d DummyRetriever banner.

Definition session_id : string := "user_session_id_v1".

(** One input line, already recognised as a [/load] command or a question,
    with what the outside world does while it is handled. *)
Inductive command :=
  | Load (path_exists : string → bool) (svc : Services) (new_doc_path : string)
  | Ask (llm : ChatModel) (wr : write_outcome) (user_input : string).

(** One pass of the [while] loop that does not leave it. *)
Definition loop_body (w : World) (c : command) : World :=
  match c with
  | Load path_exists svc new_doc_path =>
      load_command path_exists svc new_doc_path w
  | Ask llm wr user_input => chat_turn llm wr session_id user_input w
  end.

(** [main] from its start to the [quit] that ends it. *)
Definition run_main (d : gmap string file) (cs : list command)
    (wr : write_outcome) : World :=
  quit_command wr session_id (foldl loop_body (startup d) cs).

(** What the outside world does during one pass of the loop: which paths
    exist, how the ingestion collaborators and the chat model answer, how
    a write to the session file goes. *)
Record Outside := mk_Outside {
  o_exists : string → bool;
  o_services : Services;
  o_llm : ChatModel;
  o_write : write_outcome
}.

(** How a pass of the [while] loop ends: [continue] (or falling off the
    end of the body), or [break]. *)
Inductive control :=
  | Continue (w : World)
  | Break (w : World).

(** [input(prompt)] writes the prompt; it is recorded as one more entry
    of [stdout]. *)
Definition write_prompt (w : World) : World := print (nl +:+ "You: ") w.

(** The body of the [while] loop once [user_input] is known.  [normpath]
    is [os.path.normpath]. *)
Definition loop_pass (normpath : string → string) (user_input : string)
    (o : Outside) (w : World) : control :=
  if String.eqb (lower user_input) "quit" || String.eqb (lower user_input) "exit"
  then
    let w := save_session_history (o_write o) session_id w in
    Break (print "Exiting..." w)
  else if startswith (lower user_input) "/load " then
    let new_doc_path := strip (last_piece (split_once user_input)) in
    let new_doc_path := normpath new_doc_path in
    Continue (load_command (o_exists o) (o_services o) new_doc_path w)
  else
    Continue (chat_turn (o_llm o) (o_write o) session_id user_input w).

(** The [while True] loop over the lines standard input still holds, each
    with what the outside world does while it is handled; when the lines
    run out [input] raises [EOFError] and the input is taken to be
    ["quit"], handled under [eof].  [input] is taken to return a line or
    to raise [EOFError]: an exception of another kind, which the loop
    does not catch and which would end [main] on the spot, is not part of
    the model. *)
Fixpoint repl (normpath : string → string) (stdin : list (string * Outside))
    (eof : Outside) (w : World) : World :=
  match stdin with
  | [] =>
      match loop_pass normpath "quit" eof (write_prompt w) with
      | Continue w' => w'
      | Break w' => w'
      end
  | (user_input, o) :: rest =>
      match loop_pass normpath user_input o (write_prompt w) with
      | Continue w' => repl normpath rest eof w'
      | Break w' => w'
      end
  end.

(** [main()], given the names set in [os.environ].  Without the key no
    holder is made; the field of the world keeps a dummy. *)
Definition main (environ : gset string) (normpath : string → string)
    (d : gmap string file) (stdin : list (string * Outside)) (eof : Outside)
    : World :=
  if bool_decide ("GOOGLE_API_KEY" ∈ environ) then
    repl normpath stdin eof (startup d)
  else
    mk_World ∅ [] d DummyRetriever
      ["FATAL ERROR: Please set your GOOGLE_API_KEY environment variable."].

End main.

Import main.

(** ** Notions used by the statements *)

(** Every history object named by [store] exists. *)
Definition wf (w : World) : Prop :=
  ∀ sid l, store w !! sid = Some l → l < length (heap w).

(** No history object is shared by two session identifiers. *)
Definition unshared (w : World) : Prop :=
  ∀ sid1 sid2 l, store w !! sid1 = Some l → store w !! sid2 = Some l → sid1 = sid2.

(** The transcript [get_session_history] shows for a session. *)
Definition history_of (session_id : string) (w : World) : list Message :=
  let '(w', l) := get_session_history session_id w in messages w' l.

(** A process that has just started on the disk [d]: nothing cached. *)
Definition fresh (d : gmap string file) (w : World) : Prop :=
  store w = ∅ ∧ heap w = [] ∧ disk w = d.

(** The message an entry of a session file stands for, if any: an object
    whose ["type"] is ["human"] or ["ai"] and whose ["content"] is one a
    message can hold. *)
Definition entry_message (message_data : json) : option Message :=
  match message_data with
  | JObj fields =>
      match fields !! "type", fields !! "content" with
      | Some (JStr t), Some c =>
          if String.eqb t "human" then HumanMessage <$> as_content c
          else if String.eqb t "ai" then AIMessage <$> as_content c
          else None
      | _, _ => None
      end
  | _ => None
  end.

(** An object with a ["type"] and a ["content"] field. *)
Definition has_type_and_content (message_data : json) : Prop :=
  ∃ fields ty c,
    message_data = JObj fields ∧ fields !! "type" = Some ty
    ∧ fields !! "content" = Some c.

(** An object with a ["type"] and a ["content"] whose content, when the
    type is ["human"] or ["ai"], is one a message can hold. *)
Definition has_usable_content (message_data : json) : Prop :=
  ∃ fields ty c,
    message_data = JObj fields ∧ fields !! "type" = Some ty
    ∧ fields !! "content" = Some c
    ∧ (eq_str ty "human" || eq_str ty "ai" = true → is_Some (as_content c)).

(** An entry the loop gets past: an object with a ["type"], and, when
    the type is ["human"] or ["ai"], with a ["content"] that a message can
    hold. *)
Definition entry_ok (message_data : json) : bool :=
  match message_data with
  | JObj fields =>
      match fields !! "type" with
      | Some ty =>
          if eq_str ty "human" || eq_str ty "ai"
          then match fields !! "content" with
               | Some c => bool_decide (is_Some (as_content c))
               | None => false
               end
          else true
      | None => false
      end
  | _ => false
  end.

(** The entries before the first one the loop does not get past. *)
Fixpoint sound_prefix (entries : list json) : list json :=
  match entries with
  | [] => []
  | e :: rest => if entry_ok e then e :: sound_prefix rest else []
  end.

(** What is recovered from a session file: nothing unless it holds an
    array, and then the messages of its sound prefix. *)
Definition recovered (f : file) : list Message :=
  match f with
  | Json (JArr entries) => omap entry_message (sound_prefix entries)
  | _ => []
  end.

(** A session file that is not a JSON array of [{type, content}] entries. *)
Definition malformed (f : file) : Prop :=
  match f with
  | Json (JArr entries) => ¬ Forall has_type_and_content entries
  | _ => True
  end.

(** A call left the store, its objects, the disk and the holder alone. *)
Definition same_state (w w' : World) : Prop :=
  store w' = store w ∧ heap w' = heap w ∧ disk w' = disk w
  ∧ retriever_holder w' = retriever_holder w.

(** The operations of the session store, as a caller issues them. *)
Inductive op :=
  | History (session_id : string)
  | Save (wr : write_outcome) (session_id : string).

Definition step (w : World) (o : op) : World :=
  match o with
  | History sid => (get_session_history sid w).1
  | Save wr sid => save_session_history wr sid w
  end.

Definition run (ops : list op) (w : World) : World := foldl step w ops.

(** [path] ends in the extension [ext]. *)
Definition has_extension (path ext : string) : Prop :=
  ∃ stem, path = stem +:+ ext.

Definition supported_extensions : list string := [".txt"; ".pdf"; ".docx"; ".csv"].

(** The ways ingestion fails. *)
Inductive Failure :=
  | UnsupportedFormat
  | ParserUnavailable
  | EmbeddingQuotaExceeded
  | EmbeddingOrParseError.

(** The collaborators of ingestion in sequence, without the reporting. *)
Definition ingestion (svc : Services) (cls : loader_class) (file_path : string)
    : result Retriever :=
  docs ← load svc cls file_path;
  splits ← split_documents svc 1000 200 docs;
  _ ← embeddings svc;
  search ← from_documents svc splits;
  mret (VectorStoreRetriever search).

(** The failure an exception stands for: a missing module is a missing
    parser, a message that mentions the quota is a quota rejection. *)
Definition failure_of_exn (e : exn) : Failure :=
  match exn_cls e with
  | ImportError => ParserUnavailable
  | _ =>
      if contains (exn_str e) "Quota exceeded" then EmbeddingQuotaExceeded
      else EmbeddingOrParseError
  end.

(** The failure condition a call to ingestion meets, if any. *)
Definition failure_condition (svc : Services) (file_path : string)
    : option Failure :=
  match select_loader file_path with
  | None => Some UnsupportedFormat
  | Some cls =>
      match ingestion svc cls file_path with
      | Ok _ => None
      | Raise e => Some (failure_of_exn e)
      end
  end.

(** The lines a call printed. *)
Definition printed_by (w w' : World) : list string :=
  drop (length (stdout w)) (stdout w').

(** Reading the failure condition back from the lines ingestion printed. *)
Definition diagnose_from (lines : list string) : option Failure :=
  match lines with
  | line :: rest =>
      if String.eqb line
           "Error: Unsupported file format. Please use .txt, .pdf, .docx, or .csv"
      then Some UnsupportedFormat
      else if String.eqb line (nl +:+ "--- Dependency Missing Error ---")
      then Some ParserUnavailable
      else if startswith line "An error occurred during document processing: "
      then match rest with
           | [] => Some EmbeddingOrParseError
           | _ :: _ => Some EmbeddingQuotaExceeded
           end
      else None
  | [] => None
  end.

Definition diagnose (lines : list string) : option Failure :=
  match lines with
  | _ :: second :: rest =>
      if startswith second "Document split into " then diagnose_from rest
      else diagnose_from (second :: rest)
  | _ => None
  end.

(** ** Sample inputs *)

(** A session file whose second entry has no "content". *)
Definition file_with_faulty_entry : file :=
  Json (JArr [ JObj {[ "type" := JStr "human"; "content" := JStr "hi" ]};
               JObj {[ "type" := JStr "human" ]} ]).

(** A session file whose first entry has a number as content. *)
Definition file_with_numeric_content : list json :=
  [ JObj {[ "type" := JStr "human"; "content" := JInt 3 ]};
    JObj {[ "type" := JStr "ai"; "content" := JStr "hello" ]} ].

(** A session file with a system entry between a question and an answer. *)
Definition file_with_system_entry : list json :=
  [ JObj {[ "type" := JStr "human"; "content" := JStr "hi" ]};
    JObj {[ "type" := JStr "system"; "content" := JStr "be brief" ]};
    JObj {[ "type" := JStr "ai"; "content" := JStr "hello" ]} ].

Definition two_chunks : list Document :=
  [ mk_Document "first chunk" []; mk_Document "second chunk" [] ].

Definition sample_retriever : Retriever :=
  VectorStoreRetriever (λ _, Ok two_chunks).

(** Parsing and splitting work, the embedding service rejects the chunks. *)
Definition quota_services : Services :=
  mk_Services (λ _ _, Ok two_chunks) (λ _ _ docs, Ok docs) (Ok ())
    (λ _, Raise (mk_exn RuntimeError "429 Quota exceeded for embed requests")).

(** A chat model that answers, and one that is unreachable. *)
Definition answering : ChatModel := λ _, Ok "hello".
Definition unreachable : ChatModel :=
  λ _, Raise (mk_exn OSError "connection refused").

(** A world in which the session was opened and a document is loaded. *)
Definition grounded_world : World :=
  set_retriever sample_retriever ((get_session_history session_id (startup ∅)).1).

(** ** Notions used by the further statements *)

(** Every save a command asks for completes. *)
Definition writes_complete (c : command) : Prop :=
  match c with
  | Ask _ wr _ => wr = Written
  | Load _ _ _ => True
  end.

(** The command is a question. *)
Definition is_ask (c : command) : Prop :=
  match c with
  | Ask _ _ _ => True
  | Load _ _ _ => False
  end.

(** The line ends the session: it reads quit or exit in any letter case. *)
Definition is_quit (user_input : string) : Prop :=
  lower user_input = "quit" ∨ lower user_input = "exit".

(** The extension each loader class is meant for. *)
Definition extension_of (cls : loader_class) : string :=
  match cls with
  | PyPDFLoader => ".pdf"
  | TextLoader => ".txt"
  | UnstructuredWordDocumentLoader => ".docx"
  | CSVLoader => ".csv"
  end.

(** [s[n:]] *)
Fixpoint drop_chars (n : nat) (s : string) : string :=
  match n, s with
  | O, _ => s
  | S n', String _ s' => drop_chars n' s'
  | S _, EmptyString => EmptyString
  end.

(** The transcript is a sequence of exchanges: each question, a string,
    followed at once by its answer, a string. *)
Definition exchange (qa : string * string) : list Message :=
  [HumanMessage (Text qa.1); AIMessage (Text qa.2)].

Definition paired (T : list Message) : Prop :=
  ∃ exchanges : list (string * string), T = exchanges ≫= exchange.

(** The disk is in step with the process: a process started on it now
    would show the transcript this one shows. *)
Definition in_step (w : World) : Prop :=
  history_of session_id (startup (disk w)) = history_of session_id w.

(** The outside world at its most obliging and at its least. *)
Definition calm : Outside :=
  mk_Outside (λ _, true)
    (mk_Services (λ _ _, Ok two_chunks) (λ _ _ docs, Ok docs) (Ok ())
       (λ _, Ok (λ _, Ok two_chunks)))
    answering Written.

(** Collaborators whose document parser is not installed. *)
Definition parser_missing : Services :=
  mk_Services (λ _ _, Raise (mk_exn ImportError "No module named 'docx'"))
    (λ _ _ docs, Ok docs) (Ok ()) (λ _, Ok (λ _, Ok two_chunks)).

Definition stormy : Outside :=
  mk_Outside (λ _, false) quota_services unreachable
    (OpenFails (mk_exn OSError "disk full")).

(** ** The definitions at work *)

Example history_file_main :
  history_file session_id = "chat_history/user_session_id_v1.json".
Proof. reflexivity. Qed.

Example endswith_pdf :
  endswith "docs/report.pdf" ".pdf" = true ∧ endswith "report.pdf.bak" ".pdf" = false.
Proof. split; reflexivity. Qed.

Example select_loader_samples :
  select_loader "a.csv" = Some CSVLoader ∧ select_loader "a.PDF" = None
  ∧ select_loader "report.xlsx" = None.
Proof. repeat split; reflexivity. Qed.

Example contains_quota :
  contains "429 Quota exceeded for embed requests" "Quota exceeded" = true
  ∧ contains "quota exceeded" "Quota exceeded" = false.
Proof. split; reflexivity. Qed.

Example format_docs_two_chunks :
  format_docs two_chunks = "first chunk" +:+ nl +:+ nl +:+ "second chunk"
  ∧ format_docs [] = "".
Proof. split; reflexivity. Qed.

Example replay_stops_at_faulty_entry :
  load_history file_with_faulty_entry []
  = ([HumanMessage (Text "hi")], Some (mk_exn KeyError "content")).
Proof. reflexivity. Qed.

Example unusable_content_is_a_fault :
  load_history
    (Json (JArr [ JObj {[ "type" := JStr "human"; "content" := JInt 3 ]};
                  JObj {[ "type" := JStr "human" ]} ])) []
  = ([], Some (mk_exn ValueError "ValidationError: content"))
  ∧ as_content JNull = None
  ∧ as_content (JArr [JStr "a"; JObj ∅]) = Some (Blocks [ItemStr "a"; ItemDict ∅])
  ∧ as_content (JArr [JStr "a"; JInt 1]) = None.
Proof. repeat split; reflexivity. Qed.

Example load_non_array :
  load_history (Json (JObj {[ "type" := JStr "human" ]})) []
  = ([], Some (mk_exn TypeError "string indices must be integers, not 'str'"))
  ∧ (load_history (Json (JInt 3)) []).1 = []
  ∧ (load_history Malformed []).1 = [].
Proof. repeat split; reflexivity. Qed.

Example failed_turn_then_retry :
  let w1 := chat_turn unreachable Written session_id "hi" (startup ∅) in
  let w2 := chat_turn answering Written session_id "hi" w1 in
  disk w1 = ∅
  ∧ disk w2 !! history_file session_id
    = Some (Json (JArr [ serialize (HumanMessage (Text "hi"));
                         serialize (AIMessage (Text "hello")) ])).
Proof. split; reflexivity. Qed.

(** ** Session store: basic facts *)

Section session_store.
Implicit Types (w : World) (sid : string) (l : loc) (T : list Message).

Lemma messages_lookup w l T : heap w !! l = Some T → messages w l = T.
Proof. unfold messages. by intros ->. Qed.

Lemma get_session_history_cached w sid l :
  store w !! sid = Some l → get_session_history sid w = (w, l).
Proof. unfold get_session_history. by intros ->. Qed.

Lemma get_session_history_miss w sid :
  store w !! sid = None →
  ∃ T w',
    get_session_history sid w = (w', length (heap w))
    ∧ store w' = <[sid := length (heap w)]> (store w)
    ∧ heap w' = heap w ++ [T]
    ∧ disk w' = disk w
    ∧ retriever_holder w' = retriever_holder w
    ∧ stdout w' = stdout w
    ∧ T = match disk w !! history_file sid with
          | Some f => (load_history f []).1
          | None => []
          end.
Proof.
  intros Hs. unfold get_session_history. rewrite Hs.
  eexists _, _. repeat split; reflexivity.
Qed.

Lemma history_of_cached w sid l :
  store w !! sid = Some l → history_of sid w = messages w l.
Proof.
  intros Hs. unfold history_of. by rewrite (get_session_history_cached _ _ _ Hs).
Qed.

Lemma history_of_miss w sid :
  store w !! sid = None →
  history_of sid w = match disk w !! history_file sid with
                     | Some f => (load_history f []).1
                     | None => []
                     end.
Proof.
  intros Hs. unfold history_of.
  destruct (get_session_history_miss w sid Hs) as (T & w' & -> & _ & Hh & _ & _ & _ & ->).
  apply messages_lookup. rewrite Hh.
  rewrite lookup_app_r by lia. by rewrite Nat.sub_diag.
Qed.

(** What a message holds is accepted again when it is read back. *)
Lemma as_content_json c : as_content (content_json c) = Some c.
Proof.
  destruct c as [s|items]; simpl; [done|].
  rewrite (mapM_fmap_Forall_Some as_item item_json items); [done|].
  apply Forall_forall. by intros [].
Qed.

Lemma new_message_json cls c : new_message cls (content_json c) = Ok (cls c).
Proof. unfold new_message. by rewrite as_content_json. Qed.

Lemma replay_entry_serialize msg T :
  replay_entry (serialize msg) T = Ok (T ++ [msg]).
Proof.
  destruct msg; unfold replay_entry, serialize; simpl;
    simplify_map_eq; by rewrite new_message_json.
Qed.

Lemma replay_serialize T T0 :
  replay (serialize <$> T) T0 = (T0 ++ T, None).
Proof.
  revert T0. induction T as [|msg T IH]; intros T0; simpl.
  - by rewrite app_nil_r.
  - rewrite replay_entry_serialize, IH. by rewrite <- app_assoc.
Qed.

End session_store.

(** ** Loading a session file *)

Section loading.
Implicit Types (w : World) (sid : string) (T : list Message).

(** An entry the loop gets past adds its message, if it stands for one;
    any other entry raises. *)
Lemma replay_entry_ok e T :
  entry_ok e = true →
  replay_entry e T = Ok (T ++ option_list (entry_message e)).
Proof.
  destruct e as [| | | | |?|fields]; simpl; try done.
  unfold replay_entry, entry_message; simpl.
  destruct (fields !! "type") as [ty|] eqn:Hty; simpl; [|done].
  destruct ty; simpl; rewrite ?app_nil_r; try done.
  destruct (String.eqb s "human") eqn:Hh; simpl.
  - destruct (fields !! "content") as [c|]; [|done].
    intros [c' Hc']%bool_decide_eq_true. simpl. unfold new_message.
    by rewrite Hc'.
  - destruct (String.eqb s "ai") eqn:Ha; simpl.
    + destruct (fields !! "content") as [c|]; [|done].
      intros [c' Hc']%bool_decide_eq_true. simpl. unfold new_message.
      by rewrite Hc'.
    + intros _. destruct (fields !! "content"); simpl; by rewrite app_nil_r.
Qed.

Lemma replay_entry_not_ok e T :
  entry_ok e = false → ∃ x, replay_entry e T = Raise x.
Proof.
  destruct e as [| | | | |?|fields]; simpl; try by eexists.
  unfold replay_entry; simpl.
  destruct (fields !! "type") as [ty|] eqn:Hty; simpl; [|by eexists].
  destruct (eq_str ty "human") eqn:Hh; simpl.
  - destruct (fields !! "content") as [c|] eqn:E; simpl; [|by eexists].
    intros Hc%bool_decide_eq_false. unfold new_message.
    destruct (as_content c); [by destruct Hc|]. by eexists.
  - destruct (eq_str ty "ai") eqn:Ha; simpl; [|done].
    destruct (fields !! "content") as [c|] eqn:E; simpl; [|by eexists].
    intros Hc%bool_decide_eq_false. unfold new_message.
    destruct (as_content c); [by destruct Hc|]. by eexists.
Qed.

Lemma has_usable_content_ok e : has_usable_content e → entry_ok e = true.
Proof.
  intros (fields & ty & c & -> & Hty & Hc & Hok). simpl. rewrite Hty, Hc.
  destruct (eq_str ty "human" || eq_str ty "ai"); [|done].
  by apply bool_decide_eq_true, Hok.
Qed.

Lemma replay_well_formed entries T :
  Forall has_usable_content entries →
  replay entries T = (T ++ omap entry_message entries, None).
Proof.
  intros H. revert T. induction H as [|e entries He _ IH]; intros T; simpl.
  - by rewrite app_nil_r.
  - rewrite (replay_entry_ok _ _ (has_usable_content_ok _ He)), IH.
    destruct (entry_message e); simpl; by rewrite <- ?app_assoc, ?app_nil_r.
Qed.

Lemma replay_sound_prefix entries T :
  (replay entries T).1 = T ++ omap entry_message (sound_prefix entries).
Proof.
  revert T. induction entries as [|e entries IH]; intros T; simpl.
  - by rewrite app_nil_r.
  - destruct (entry_ok e) eqn:He.
    + rewrite (replay_entry_ok _ _ He), IH. simpl.
      destruct (entry_message e); simpl; by rewrite <- ?app_assoc, ?app_nil_r.
    + destruct (replay_entry_not_ok e T He) as [x ->]. simpl.
      by rewrite app_nil_r.
Qed.

(** Strings are not entries: iterating a dict or a string instead of a
    list stops at the first key or character. *)
Lemma replay_strings (keys : list string) T :
  (replay (JStr <$> keys) T).1 = T.
Proof. by destruct keys. Qed.

Lemma load_history_recovered f : (load_history f []).1 = recovered f.
Proof.
  destruct f as [| |data]; try done.
  destruct data; simpl; try done.
  - apply replay_strings.
  - apply replay_sound_prefix.
  - apply replay_strings.
Qed.

End loading.

(** C3: a transcript held for a session, saved and then read back by a
    process that starts with an empty store, is the same transcript: the
    same messages, in the same order, each with its role and content. *)
Theorem save_then_history_round_trip w sid l T w0 :
  store w !! sid = Some l →
  heap w !! l = Some T →
  fresh (disk (save_session_history Written sid w)) w0 →
  history_of sid w0 = T.
Proof.
  intros Hs Hl (Hstore & _ & Hdisk).
  rewrite history_of_miss by (rewrite Hstore; apply lookup_empty).
  rewrite Hdisk. unfold save_session_history. rewrite Hs. simpl.
  rewrite lookup_insert_eq. simpl.
  rewrite (messages_lookup _ _ _ Hl). by rewrite replay_serialize.
Qed.

(** C9 (amended): from a session file that is an array of objects which
    all have a "type" and a "content", and in which the content of every
    "human" or "ai" entry is one a message can hold (a string, or a list
    of strings and objects), the first call loads, in file order, exactly
    the entries whose type is "human" or "ai"; the others are passed over,
    no exception is raised and the loop reaches the end of the array. *)
Theorem first_history_loads_human_and_ai_entries w sid entries :
  store w !! sid = None →
  disk w !! history_file sid = Some (Json (JArr entries)) →
  Forall has_usable_content entries →
  history_of sid w = omap entry_message entries
  ∧ load_history (Json (JArr entries)) [] = (omap entry_message entries, None)
  ∧ ∀ fields ty v,
      fields !! "type" = Some ty → fields !! "content" = Some v →
      entry_message (JObj fields)
      = if eq_str ty "human" then HumanMessage <$> as_content v
        else if eq_str ty "ai" then AIMessage <$> as_content v
        else None.
Proof.
  intros Hs Hd Hwf. rewrite (history_of_miss _ _ Hs), Hd. simpl.
  rewrite (replay_well_formed _ _ Hwf). do 2 (split; [done|]).
  intros fields ty v Hty Hv. simpl. rewrite Hty, Hv. by destruct ty.
Qed.

(** C4 (amended): when the session file exists, the first call returns
    without raising; the transcript is empty when the file cannot be read,
    is not JSON, or is not an array, and otherwise holds the messages of
    the entries that come before the first faulty entry. *)
Theorem first_history_recovers_sound_prefix w sid f :
  store w !! sid = None →
  disk w !! history_file sid = Some f →
  history_of sid w = recovered f
  ∧ ((∀ entries, f ≠ Json (JArr entries)) → history_of sid w = [])
  ∧ (∀ entries, f = Json (JArr entries) → sound_prefix entries = [] →
       history_of sid w = []).
Proof.
  intros Hs Hd. rewrite (history_of_miss _ _ Hs), Hd, load_history_recovered.
  split; [done|]. split.
  - intros Hf. destruct f as [| |[]]; try done. by destruct (Hf items).
  - intros entries -> Hp. simpl. by rewrite Hp.
Qed.

(** ** The store as a cache of history objects *)

Section cache.
Implicit Types (w : World) (sid : string) (l : loc).

Lemma get_session_history_idem w sid :
  get_session_history sid (get_session_history sid w).1
  = get_session_history sid w.
Proof.
  destruct (store w !! sid) as [l|] eqn:Hs.
  - rewrite (get_session_history_cached _ _ _ Hs). simpl.
    by apply get_session_history_cached.
  - destruct (get_session_history_miss w sid Hs) as (T & w' & E & Hst & _).
    rewrite E. simpl. apply get_session_history_cached.
    rewrite Hst. apply lookup_insert_eq.
Qed.

Lemma get_session_history_lookup w sid :
  wf w →
  store (get_session_history sid w).1 !! sid = Some (get_session_history sid w).2
  ∧ (get_session_history sid w).2 < length (heap (get_session_history sid w).1).
Proof.
  intros Hwf. destruct (store w !! sid) as [l|] eqn:Hs.
  - rewrite (get_session_history_cached _ _ _ Hs). simpl. eauto.
  - destruct (get_session_history_miss w sid Hs) as (T & w' & -> & Hst & Hh & _).
    simpl. rewrite Hst, Hh, lookup_insert_eq, length_app. simpl. split; [done|lia].
Qed.

Lemma get_session_history_keeps w sid sid' l :
  wf w → store w !! sid' = Some l →
  store (get_session_history sid w).1 !! sid' = Some l
  ∧ heap (get_session_history sid w).1 !! l = heap w !! l.
Proof.
  intros Hwf Hl. destruct (store w !! sid) as [l0|] eqn:Hs.
  - by rewrite (get_session_history_cached _ _ _ Hs).
  - destruct (get_session_history_miss w sid Hs) as (T & w' & -> & Hst & Hh & _).
    simpl. rewrite Hst, Hh. split.
    + rewrite lookup_insert_ne; [done|]. intros ->. congruence.
    + apply lookup_app_l. eauto.
Qed.

Lemma get_session_history_wf w sid : wf w → wf (get_session_history sid w).1.
Proof.
  intros Hwf. destruct (store w !! sid) as [l0|] eqn:Hs.
  - by rewrite (get_session_history_cached _ _ _ Hs).
  - destruct (get_session_history_miss w sid Hs) as (T & w' & -> & Hst & Hh & _).
    simpl. intros sid' l. rewrite Hst, Hh, length_app. simpl.
    destruct (decide (sid = sid')) as [->|Hne].
    + rewrite lookup_insert_eq. intros [= <-]. lia.
    + rewrite lookup_insert_ne by done. intros H%Hwf. lia.
Qed.

Lemma get_session_history_unshared w sid :
  wf w → unshared w → unshared (get_session_history sid w).1.
Proof.
  intros Hwf Hun. destruct (store w !! sid) as [l0|] eqn:Hs.
  - by rewrite (get_session_history_cached _ _ _ Hs).
  - destruct (get_session_history_miss w sid Hs) as (T & w' & -> & Hst & Hh & _).
    simpl. intros s1 s2 l. rewrite Hst.
    destruct (decide (sid = s1)) as [E1|H1], (decide (sid = s2)) as [E2|H2];
      subst; rewrite ?lookup_insert_eq, ?lookup_insert_ne by done; try done.
    + intros [= <-] H%Hwf. lia.
    + intros H%Hwf [= <-]. lia.
    + apply Hun.
Qed.

Lemma save_session_history_store wr sid w :
  store (save_session_history wr sid w) = store w.
Proof. unfold save_session_history. by destruct (store w !! sid), wr. Qed.

Lemma save_session_history_heap wr sid w :
  heap (save_session_history wr sid w) = heap w.
Proof. unfold save_session_history. by destruct (store w !! sid), wr. Qed.

Lemma save_session_history_retriever wr sid w :
  retriever_holder (save_session_history wr sid w) = retriever_holder w.
Proof. unfold save_session_history. by destruct (store w !! sid), wr. Qed.

Lemma save_session_history_absent wr sid w :
  store w !! sid = None → save_session_history wr sid w = w.
Proof. unfold save_session_history. by intros ->. Qed.

Lemma step_invariant w o :
  wf w → unshared w →
  (wf (step w o) ∧ unshared (step w o))
  ∧ ∀ sid l, store w !! sid = Some l →
      store (step w o) !! sid = Some l ∧ heap (step w o) !! l = heap w !! l.
Proof.
  intros Hwf Hun. destruct o as [sid|wr sid]; simpl.
  - split; [split|].
    + by apply get_session_history_wf.
    + by apply get_session_history_unshared.
    + intros. by apply get_session_history_keeps.
  - unfold wf, unshared.
    rewrite save_session_history_store, save_session_history_heap. eauto.
Qed.

Lemma run_invariant ops w :
  wf w → unshared w →
  (wf (run ops w) ∧ unshared (run ops w))
  ∧ ∀ sid l, store w !! sid = Some l →
      store (run ops w) !! sid = Some l ∧ heap (run ops w) !! l = heap w !! l.
Proof.
  revert w. induction ops as [|o ops IH]; intros w Hwf Hun; [by eauto|].
  destruct (step_invariant w o Hwf Hun) as [[Hwf' Hun'] Hk].
  destruct (IH _ Hwf' Hun') as [Hinv Hk']. split; [exact Hinv|].
  intros sid l Hl. destruct (Hk _ _ Hl) as [Hs Hh].
  destruct (Hk' _ _ Hs) as [Hs' Hh']. split; [exact Hs'|]. simpl.
  by rewrite <- Hh.
Qed.

End cache.

(** C8: along any sequence of history and save operations the store names
    one history object per session identifier and no object twice; an
    entry, once there, stays bound to the same object with the same
    messages; a first history call binds the identifier to a new object;
    a later one returns the cached object whatever the disk holds; and
    save leaves the store and its objects as they are. *)
Theorem store_caches_one_transcript_per_session ops w :
  wf w → unshared w →
  let w' := run ops w in
  (wf w' ∧ unshared w')
  ∧ (∀ sid l, store w !! sid = Some l →
       store w' !! sid = Some l ∧ heap w' !! l = heap w !! l)
  ∧ (∀ sid, store w' !! sid = None →
       let l := (get_session_history sid w').2 in
       let w'' := (get_session_history sid w').1 in
       heap w' !! l = None
       ∧ store w'' = <[sid := l]> (store w')
       ∧ heap w'' !! l = Some (history_of sid w'))
  ∧ (∀ sid l d, store w' !! sid = Some l →
       get_session_history sid (set_disk (λ _, d) w') = (set_disk (λ _, d) w', l))
  ∧ (∀ wr sid,
       store (save_session_history wr sid w') = store w'
       ∧ heap (save_session_history wr sid w') = heap w').
Proof.
  intros Hwf Hun w'. destruct (run_invariant ops w Hwf Hun) as [Hinv Hk].
  split; [exact Hinv|]. split; [exact Hk|]. split; [|split].
  - intros sid Hs. unfold history_of.
    destruct (get_session_history_miss w' sid Hs) as (T & w2 & E & Hst & Hh & _).
    rewrite E. simpl. split; [|split].
    + apply lookup_ge_None. lia.
    + exact Hst.
    + unfold messages. rewrite Hh, lookup_app_r by lia.
      by rewrite Nat.sub_diag.
  - intros sid l d Hs. by apply get_session_history_cached.
  - intros wr sid. by rewrite save_session_history_store, save_session_history_heap.
Qed.

(** ** A conversation turn *)

Section turn.
Implicit Types (w : World) (sid q : string) (l : loc) (llm : ChatModel).

Lemma history_of_eq w sid :
  history_of sid w
  = messages (get_session_history sid w).1 (get_session_history sid w).2.
Proof. unfold history_of. by destruct (get_session_history sid w). Qed.

Lemma history_of_frame w1 w2 sid l :
  store w1 !! sid = Some l → store w2 = store w1 → heap w2 = heap w1 →
  history_of sid w2 = history_of sid w1.
Proof.
  intros Hs Hst Hh. rewrite (history_of_cached w1 _ _ Hs).
  rewrite (history_of_cached w2 _ l) by (by rewrite Hst).
  unfold messages. by rewrite Hh.
Qed.

Lemma conversational_rag_chain_eq llm sid q w :
  conversational_rag_chain llm sid q w =
    let w1 := (get_session_history sid w).1 in
    let l := (get_session_history sid w).2 in
    match full_rag_chain llm q (history_of sid w) w1 with
    | Ok answer =>
        (add_messages l [HumanMessage (Text q); AIMessage (Text answer)] w1,
         Ok answer)
    | Raise e => (w1, Raise e)
    end.
Proof.
  unfold conversational_rag_chain, history_of.
  by destruct (get_session_history sid w).
Qed.

Lemma get_session_history_retriever w sid :
  retriever_holder (get_session_history sid w).1 = retriever_holder w.
Proof.
  unfold get_session_history. by destruct (store w !! sid).
Qed.

Lemma get_session_history_disk w sid :
  disk (get_session_history sid w).1 = disk w.
Proof.
  unfold get_session_history. by destruct (store w !! sid).
Qed.

Lemma add_messages_history w sid l msgs :
  store w !! sid = Some l → l < length (heap w) →
  history_of sid (add_messages l msgs w) = messages w l ++ msgs.
Proof.
  intros Hs Hl. rewrite (history_of_cached _ _ l) by done.
  unfold messages at 1. simpl. by rewrite list_lookup_insert_eq.
Qed.

(** The messages of a session after a turn of [main] are those the chain
    left: printing and saving touch neither the store nor its objects. *)
Lemma chat_turn_history llm wr sid q w :
  wf w →
  history_of sid (chat_turn llm wr sid q w)
  = history_of sid (conversational_rag_chain llm sid q w).1.
Proof.
  intros Hwf. unfold chat_turn. rewrite conversational_rag_chain_eq. simpl.
  destruct (get_session_history_lookup w sid Hwf) as [Hs Hl].
  destruct (full_rag_chain _ _ _ _); simpl;
    (eapply history_of_frame; [exact Hs|..]); simpl;
    by rewrite ?save_session_history_store, ?save_session_history_heap.
Qed.

Lemma full_rag_chain_eq llm q h w docs :
  invoke (retriever_holder w) q = Ok docs →
  full_rag_chain llm q h w
  = llm (prompt (mk_ChainInput q h (format_docs docs))).
Proof. unfold full_rag_chain, dynamic_retrieval. by intros ->. Qed.

Lemma join_concat sep parts : join sep parts = String.concat sep parts.
Proof.
  induction parts as [|p [|p' rest] IH]; simpl in *; by rewrite ?IH.
Qed.

End turn.

(** C1: when the chain answers, the transcript of the session is the one
    it had, unchanged, followed by the human message with the question and
    then the ai message with the answer, and nothing else; a turn of
    [main] leaves it so. *)
Theorem respond_success_appends_question_then_answer llm sid q w answer :
  wf w →
  (conversational_rag_chain llm sid q w).2 = Ok answer →
  let w' := (conversational_rag_chain llm sid q w).1 in
  history_of sid w'
  = history_of sid w ++ [HumanMessage (Text q); AIMessage (Text answer)]
  ∧ length (history_of sid w') = length (history_of sid w) + 2
  ∧ ∀ wr, history_of sid (chat_turn llm wr sid q w)
          = history_of sid w ++ [HumanMessage (Text q); AIMessage (Text answer)].
Proof.
  intros Hwf Hok w'.
  assert (history_of sid w'
          = history_of sid w ++ [HumanMessage (Text q); AIMessage (Text answer)])
    as Hgrow.
  { subst w'. revert Hok. rewrite conversational_rag_chain_eq. simpl.
    destruct (get_session_history_lookup w sid Hwf) as [Hs Hl].
    destruct (full_rag_chain _ _ _ _) as [a|e]; simpl; [|done].
    intros [= ->]. rewrite (add_messages_history _ _ _ _ Hs Hl).
    by rewrite history_of_eq. }
  split; [exact Hgrow|]. split.
  - rewrite Hgrow, length_app. simpl. lia.
  - intros wr. by rewrite chat_turn_history.
Qed.

(** C2: when the chain raises, the session shows the transcript it showed
    before, an entry already in the store is left as it was, the turn of
    [main] writes nothing to disk, and asking again from the state the
    failure left behaves as asking again from the state before it. *)
Theorem respond_failure_changes_no_history llm sid q w e :
  (conversational_rag_chain llm sid q w).2 = Raise e →
  let w' := (conversational_rag_chain llm sid q w).1 in
  history_of sid w' = history_of sid w
  ∧ length (history_of sid w') = length (history_of sid w)
  ∧ (∀ l, store w !! sid = Some l → w' = w)
  ∧ disk w' = disk w
  ∧ (∀ wr, disk (chat_turn llm wr sid q w) = disk w
           ∧ store (chat_turn llm wr sid q w) = store w'
           ∧ heap (chat_turn llm wr sid q w) = heap w')
  ∧ (∀ llm2 q2, conversational_rag_chain llm2 sid q2 w'
                = conversational_rag_chain llm2 sid q2 w).
Proof.
  intros Hfail w'.
  assert (w' = (get_session_history sid w).1) as Hw'.
  { subst w'. revert Hfail. rewrite conversational_rag_chain_eq. simpl.
    by destruct (full_rag_chain _ _ _ _). }
  assert (history_of sid w' = history_of sid w) as Hsame.
  { rewrite Hw', !history_of_eq. by rewrite get_session_history_idem. }
  split; [exact Hsame|]. split; [by rewrite Hsame|]. split; [|split; [|split]].
  - intros l Hs. by rewrite Hw', (get_session_history_cached _ _ _ Hs).
  - rewrite Hw'. apply get_session_history_disk.
  - intros wr. unfold chat_turn. revert Hfail.
    rewrite Hw', conversational_rag_chain_eq. simpl.
    destruct (full_rag_chain _ _ _ _); simpl; [done|]. intros _.
    by rewrite get_session_history_disk.
  - intros llm2 q2. rewrite Hw'.
    unfold conversational_rag_chain. by rewrite get_session_history_idem.
Qed.

(** C7: on a turn, the prompt given to the chat model carries as context
    the text of the chunks the held retriever returned for the question,
    in the order returned, with a blank line between consecutive chunks;
    with the dummy retriever in the holder the context is the empty
    string. *)
Theorem context_is_retrieved_chunks_joined llm sid q w docs :
  invoke (retriever_holder w) q = Ok docs →
  let context := String.concat (nl +:+ nl) (page_content <$> docs) in
  dynamic_retrieval q w = Ok context
  ∧ (conversational_rag_chain llm sid q w).2
    = llm (prompt (mk_ChainInput q (history_of sid w) context))
  ∧ (retriever_holder w = DummyRetriever → context = "").
Proof.
  intros Hdocs context. subst context. rewrite <- join_concat.
  split; [|split].
  - unfold dynamic_retrieval. by rewrite Hdocs.
  - rewrite conversational_rag_chain_eq. simpl.
    rewrite (full_rag_chain_eq llm q _ _ docs)
      by (by rewrite get_session_history_retriever).
    unfold format_docs. by destruct (llm _).
  - intros Hdummy. rewrite Hdummy in Hdocs. by injection Hdocs as <-.
Qed.

(** ** Ingestion *)

Section ingest.
Implicit Types (w : World) (svc : Services) (p : string) (e : exn).

Lemma startswith_app pre x : startswith (pre +:+ x) pre = true.
Proof. induction pre as [|a pre IH]; simpl; [done|]. by rewrite Ascii.eqb_refl. Qed.

Lemma endswith_has_extension s ext :
  endswith s ext = true ↔ has_extension s ext.
Proof.
  split.
  - induction s as [|a s IH]; cbn [endswith].
    + rewrite orb_false_r. intros <-%String.eqb_eq. by exists "".
    + intros [<-%String.eqb_eq|H]%orb_true_iff; [by exists ""|].
      destruct (IH H) as [stem ->]. by exists (String a stem).
  - intros [stem ->]. induction stem as [|a stem IH].
    + change ("" +:+ ext) with ext.
      destruct ext; [done|]. cbn [endswith]. by rewrite String.eqb_refl.
    + change (String a stem +:+ ext) with (String a (stem +:+ ext)).
      cbn [endswith]. rewrite IH. apply orb_true_r.
Qed.

Lemma select_loader_none p :
  select_loader p = None ↔ ∀ ext, ext ∈ supported_extensions → ¬ has_extension p ext.
Proof.
  unfold select_loader, supported_extensions. split.
  - intros H ext Hin Hext%endswith_has_extension.
    destruct (endswith p ".pdf") eqn:E1; [done|].
    destruct (endswith p ".txt") eqn:E2; [done|].
    destruct (endswith p ".docx") eqn:E3; [done|].
    destruct (endswith p ".csv") eqn:E4; [done|].
    unfold supported_extensions in Hin. set_unfold.
    destruct Hin as [E | [E | [E | [E | []]]]]; subst ext; congruence.
  - intros H.
    assert (∀ ext, ext ∈ [".txt"; ".pdf"; ".docx"; ".csv"] → endswith p ext = false) as Hf.
    { intros ext Hin. destruct (endswith p ext) eqn:E; [|done].
      by destruct (H ext Hin); apply endswith_has_extension. }
    rewrite !Hf; [done|set_solver..].
Qed.

Lemma printed_by_app w w' lines :
  stdout w' = stdout w ++ lines → printed_by w w' = lines.
Proof. unfold printed_by. intros ->. by rewrite drop_app_length. Qed.

Lemma same_state_refl w : same_state w w.
Proof. by repeat split. Qed.

(** What [process] prints before it returns or raises: nothing, or the
    number of chunks. *)
Lemma process_report svc cls p w :
  (process svc cls p w).2 = ingestion svc cls p
  ∧ same_state w (process svc cls p w).1
  ∧ (stdout (process svc cls p w).1 = stdout w
     ∨ ∃ n : nat, stdout (process svc cls p w).1
            = stdout w ++ ["Document split into " +:+ pretty n +:+ " chunks."]).
Proof.
  unfold process, ingestion.
  destruct (load svc cls p) as [docs|e]; simpl;
    [|by auto using same_state_refl].
  destruct (split_documents svc 1000 200 docs) as [splits|e]; simpl;
    [|by auto using same_state_refl].
  destruct (embeddings svc) as [[]|e]; simpl;
    [|by split; [|split; [|right; eexists]]].
  destruct (from_documents svc splits) as [search|e]; simpl;
    by split; [|split; [|right; eexists]].
Qed.

Lemma on_import_error_report e p w :
  same_state w (on_import_error e p w)
  ∧ ∃ rest, stdout (on_import_error e p w)
            = stdout w ++ (nl +:+ "--- Dependency Missing Error ---") :: rest.
Proof.
  unfold on_import_error.
  destruct (_ || _ || _); [|destruct (_ || _)]; simpl;
    (split; [done|]); eexists; by rewrite <- !app_assoc.
Qed.

Lemma on_exception_report e w :
  same_state w (on_exception e w)
  ∧ ∃ rest, stdout (on_exception e w)
            = stdout w
              ++ ("An error occurred during document processing: " +:+ exn_str e)
                 :: rest
            ∧ (rest = [] ↔ contains (exn_str e) "Quota exceeded" = false).
Proof.
  unfold on_exception.
  destruct (contains _ _); simpl; (split; [done|]); eexists;
    rewrite <- ?app_assoc; (split; [reflexivity|]); done.
Qed.

End ingest.

Section report.
Implicit Types (w : World) (svc : Services) (p : string) (e : exn).

Local Abbreviation split_mark := "Document split into ".
Local Abbreviation banner := (nl +:+ "--- Dependency Missing Error ---").
Local Abbreviation unsupported :=
  "Error: Unsupported file format. Please use .txt, .pdf, .docx, or .csv".
Local Abbreviation failed e :=
  ("An error occurred during document processing: " +:+ exn_str e).

Lemma same_state_trans w1 w2 w3 :
  same_state w1 w2 → same_state w2 w3 → same_state w1 w3.
Proof.
  intros (?&?&?&?) (?&?&?&?). repeat split; congruence.
Qed.

Lemma same_state_print line w : same_state w (print line w).
Proof. by repeat split. Qed.

Lemma diagnose_unsupported loading :
  diagnose [loading; unsupported] = Some UnsupportedFormat.
Proof. reflexivity. Qed.

Lemma diagnose_from_banner rest :
  diagnose_from (banner :: rest) = Some ParserUnavailable.
Proof. reflexivity. Qed.

Lemma diagnose_from_failed e rest :
  exn_cls e ≠ ImportError →
  (rest = [] ↔ contains (exn_str e) "Quota exceeded" = false) →
  diagnose_from (failed e :: rest) = Some (failure_of_exn e).
Proof.
  intros Hcls Hrest. unfold diagnose_from.
  change (String.eqb (failed e) unsupported) with false.
  change (String.eqb (failed e) banner) with false.
  cbv iota. rewrite startswith_app.
  unfold failure_of_exn.
  destruct (contains (exn_str e) "Quota exceeded");
    destruct rest; destruct (exn_cls e); try done;
    try (by destruct Hrest as [H1 H2]; discriminate (H2 eq_refl));
    try (by destruct Hrest as [H1 H2]; discriminate (H1 eq_refl)).
Qed.

(** The chunk count, when it was printed, does not hide the report. *)
Lemma diagnose_after_process loading pre first rest :
  (pre = [] ∨ ∃ n : nat, pre = [split_mark +:+ pretty n +:+ " chunks."]) →
  startswith first split_mark = false →
  diagnose (loading :: pre ++ first :: rest) = diagnose_from (first :: rest).
Proof.
  intros [->|[n ->]] Hfirst; simpl app; unfold diagnose.
  - by rewrite Hfirst.
  - by rewrite startswith_app.
Qed.

Lemma load_and_process_document_report svc p w :
  same_state w (load_and_process_document svc p w).1
  ∧ match failure_condition svc p with
    | Some c =>
        (load_and_process_document svc p w).2 = None
        ∧ diagnose (printed_by w (load_and_process_document svc p w).1) = Some c
    | None => is_Some (load_and_process_document svc p w).2
    end.
Proof.
  unfold load_and_process_document, failure_condition.
  set (loading := "Loading document from: " +:+ p +:+ "...").
  destruct (select_loader p) as [cls|]; simpl.
  2:{ split; [done|]. split; [done|].
      rewrite (printed_by_app w _ [loading; unsupported])
        by (simpl; by rewrite <- app_assoc).
      apply diagnose_unsupported. }
  destruct (process_report svc cls p (print loading w)) as (Hres & Hsame & Hout).
  assert (∃ pre, stdout (process svc cls p (print loading w)).1
                 = stdout w ++ loading :: pre
                 ∧ (pre = [] ∨ ∃ n : nat, pre = [split_mark +:+ pretty n +:+ " chunks."]))
    as (pre & Hpre & Hshape).
  { destruct Hout as [->|[n ->]]; simpl.
    - exists []. auto.
    - eexists [_]. rewrite <- app_assoc. eauto. }
  clear Hout.
  destruct (process svc cls p (print loading w)) as [w1 r]; simpl in *.
  subst r. destruct (ingestion svc cls p) as [retriever|e]; simpl.
  { split; [|by eexists].
    eapply same_state_trans; [apply (same_state_print loading)|done]. }
  assert (same_state w w1) as Hw1.
  { eapply same_state_trans; [apply (same_state_print loading)|done]. }
  destruct (exn_cls e) eqn:Hcls; simpl.
  1:{ destruct (on_import_error_report e p w1) as (Hs & rest & Hout).
      split; [by eapply same_state_trans|]. split; [done|].
      rewrite (printed_by_app w _ (loading :: pre ++ banner :: rest))
        by (rewrite Hout, Hpre; by rewrite <- app_assoc).
      rewrite diagnose_after_process by done.
      unfold failure_of_exn. by rewrite Hcls. }
  all: destruct (on_exception_report e w1) as (Hs & rest & Hout & Hrest);
    (split; [by eapply same_state_trans|]); (split; [done|]);
    rewrite (printed_by_app w _ (loading :: pre ++ failed e :: rest))
      by (rewrite Hout, Hpre; by rewrite <- app_assoc);
    rewrite diagnose_after_process by done;
    apply diagnose_from_failed; [by rewrite Hcls|done].
Qed.

End report.

(** C5 (amended): ingestion always returns; when one of the four failure
    conditions arises it returns the same plain None, which carries no
    tag, and tells the conditions apart only in what it prints, from which
    the condition can be read back; it returns a retriever exactly when
    none of them arises. *)
Theorem ingest_failure_returns_none_and_reports_condition svc p w :
  match failure_condition svc p with
  | Some c =>
      (load_and_process_document svc p w).2 = None
      ∧ diagnose (printed_by w (load_and_process_document svc p w).1) = Some c
  | None => is_Some (load_and_process_document svc p w).2
  end.
Proof. apply load_and_process_document_report. Qed.

(** C5 (as stated) fails: an unsupported extension and a quota rejection
    are different failure conditions, and ingestion returns the same value
    for both. *)
Lemma ingest_returns_same_value_for_distinct_failures :
  failure_condition quota_services "report.xlsx" = Some UnsupportedFormat
  ∧ failure_condition quota_services "notes.txt" = Some EmbeddingQuotaExceeded
  ∧ (load_and_process_document quota_services "report.xlsx" (startup ∅)).2 = None
  ∧ (load_and_process_document quota_services "notes.txt" (startup ∅)).2 = None.
Proof. repeat split; reflexivity. Qed.

(** C6 (amended): a path that ends in none of .txt, .pdf, .docx and .csv
    is rejected: ingestion returns None, the value it returns for every
    failure, after printing the unsupported-format error; it calls no
    collaborator (no loader opens any file), and leaves the store, its
    objects, the disk and the retriever holder as they were. *)
Theorem unsupported_extension_rejected_without_effect svc p w :
  (∀ ext, ext ∈ supported_extensions → ¬ has_extension p ext) →
  let w' := (load_and_process_document svc p w).1 in
  (load_and_process_document svc p w).2 = None
  ∧ failure_condition svc p = Some UnsupportedFormat
  ∧ diagnose (printed_by w w') = Some UnsupportedFormat
  ∧ same_state w w'
  ∧ ∀ svc', load_and_process_document svc' p w = load_and_process_document svc p w.
Proof.
  intros Hext%select_loader_none w'.
  assert (failure_condition svc p = Some UnsupportedFormat) as Hcond.
  { unfold failure_condition. by rewrite Hext. }
  destruct (load_and_process_document_report svc p w) as [Hsame Hrep].
  rewrite Hcond in Hrep. destruct Hrep as [Hnone Hdiag].
  repeat split; try done; try apply Hsame.
  intros svc'. unfold load_and_process_document. by rewrite Hext.
Qed.

(** C10: in the /load branch, when the path exists and ingestion returns
    None the holder is given a dummy retriever, whatever it held; when the
    path does not exist ingestion is not called and the holder keeps the
    retriever it held. *)
Theorem load_command_failure_resets_missing_file_keeps path_exists svc p w :
  (path_exists p = true →
   (load_and_process_document svc p w).2 = None →
   retriever_holder (load_command path_exists svc p w) = DummyRetriever)
  ∧ (path_exists p = false →
     retriever_holder (load_command path_exists svc p w) = retriever_holder w
     ∧ load_command path_exists svc p w
       = print ("File not found at: " +:+ p
                +:+ ". Current RAG status remains unchanged.") w
     ∧ ∀ svc', load_command path_exists svc' p w = load_command path_exists svc p w).
Proof.
  unfold load_command. split.
  - intros -> Hnone. simpl.
    destruct (load_and_process_document svc p w) as [w1 r]. simpl in Hnone.
    by subst r.
  - intros ->. by simpl.
Qed.

(** ** The invariant along a run of [main] *)

Lemma wf_startup d : wf (startup d).
Proof. intros sid l H. simpl in H. by rewrite lookup_empty in H. Qed.

Lemma unshared_startup d : unshared (startup d).
Proof. intros sid1 sid2 l H. simpl in H. by rewrite lookup_empty in H. Qed.

Lemma wf_same_state w w' : same_state w w' → wf w → wf w'.
Proof. intros (Hs & Hh & _) Hwf sid l. rewrite Hs, Hh. apply Hwf. Qed.

Lemma load_command_same_sessions path_exists svc p w :
  store (load_command path_exists svc p w) = store w
  ∧ heap (load_command path_exists svc p w) = heap w
  ∧ disk (load_command path_exists svc p w) = disk w.
Proof.
  unfold load_command. destruct (path_exists p); simpl; [|done].
  destruct (load_and_process_document_report svc p w) as [(Hs & Hh & Hd & _) _].
  destruct (load_and_process_document svc p w) as [w1 [r|]]; simpl in *; done.
Qed.

Lemma conversational_rag_chain_wf llm sid q w :
  wf w → unshared w →
  wf (conversational_rag_chain llm sid q w).1
  ∧ unshared (conversational_rag_chain llm sid q w).1.
Proof.
  intros Hwf Hun. rewrite conversational_rag_chain_eq. simpl.
  pose proof (get_session_history_wf w sid Hwf) as Hwf1.
  pose proof (get_session_history_unshared w sid Hwf Hun) as Hun1.
  destruct (full_rag_chain _ _ _ _); simpl; [|done].
  split; [|exact Hun1].
  intros sid' l. simpl. rewrite length_insert. apply Hwf1.
Qed.

Lemma chat_turn_wf llm wr sid q w :
  wf w → unshared w →
  wf (chat_turn llm wr sid q w) ∧ unshared (chat_turn llm wr sid q w).
Proof.
  intros Hwf Hun.
  destruct (conversational_rag_chain_wf llm sid q w Hwf Hun) as [Hwf1 Hun1].
  unfold chat_turn.
  destruct (conversational_rag_chain llm sid q w) as [w1 [answer|e]];
    simpl in *; [|done].
  unfold wf, unshared. simpl.
  by rewrite save_session_history_store, save_session_history_heap.
Qed.

(** Every world the loop of [main] passes through is well formed. *)
Lemma loop_invariant d cs :
  wf (foldl loop_body (startup d) cs) ∧ unshared (foldl loop_body (startup d) cs).
Proof.
  assert (∀ w, wf w → unshared w →
               wf (foldl loop_body w cs) ∧ unshared (foldl loop_body w cs)) as H.
  { induction cs as [|c cs IH]; intros w Hwf Hun; [done|]. simpl.
    destruct c as [path_exists svc p|llm wr q]; simpl.
    - destruct (load_command_same_sessions path_exists svc p w) as (Hs & Hh & _).
      apply IH; unfold wf, unshared; rewrite Hs, ?Hh; done.
    - destruct (chat_turn_wf llm wr session_id q w Hwf Hun). by apply IH. }
  apply H; [apply wf_startup | apply unshared_startup].
Qed.

(** ** The statements at sample inputs *)

Lemma respond_success_sample :
  wf (startup ∅)
  ∧ (conversational_rag_chain answering session_id "hi" (startup ∅)).2 = Ok "hello"
  ∧ history_of session_id
      (conversational_rag_chain answering session_id "hi" (startup ∅)).1
    = [HumanMessage (Text "hi"); AIMessage (Text "hello")].
Proof.
  split; [apply wf_startup|]. split; [reflexivity|].
  exact (proj1 (respond_success_appends_question_then_answer
                  answering session_id "hi" (startup ∅) "hello"
                  (wf_startup ∅) eq_refl)).
Defined.

Lemma respond_failure_sample :
  (conversational_rag_chain unreachable session_id "hi" (startup ∅)).2
  = Raise (mk_exn OSError "connection refused")
  ∧ history_of session_id
      (conversational_rag_chain unreachable session_id "hi" (startup ∅)).1
    = []
  ∧ disk (chat_turn unreachable Written session_id "hi" (startup ∅)) = ∅.
Proof.
  split; [reflexivity|].
  destruct (respond_failure_changes_no_history
              unreachable session_id "hi" (startup ∅)
              (mk_exn OSError "connection refused") eq_refl)
    as (Hsame & _ & _ & _ & Hturn & _).
  split; [exact Hsame | exact (proj1 (Hturn Written))].
Defined.

Lemma round_trip_sample :
  let w := (conversational_rag_chain answering session_id "hi" (startup ∅)).1 in
  let T := [HumanMessage (Text "hi"); AIMessage (Text "hello")] in
  store w !! session_id = Some 0
  ∧ heap w !! 0 = Some T
  ∧ history_of session_id
      (startup (disk (save_session_history Written session_id w))) = T.
Proof.
  intros w T. split; [reflexivity|]. split; [reflexivity|].
  apply (save_then_history_round_trip w session_id 0 T); try reflexivity.
  repeat split.
Defined.

Lemma faulty_entry_sample :
  let w := startup {[ history_file session_id := file_with_faulty_entry ]} in
  store w !! session_id = None
  ∧ disk w !! history_file session_id = Some file_with_faulty_entry
  ∧ history_of session_id w = [HumanMessage (Text "hi")].
Proof.
  intros w. split; [reflexivity|]. split; [reflexivity|].
  exact (proj1 (first_history_recovers_sound_prefix
                  w session_id file_with_faulty_entry eq_refl eq_refl)).
Defined.

(** C4 (as stated) fails: a session file whose second entry lacks its
    "content" is malformed, and the first call returns the first entry's
    message, not an empty transcript. *)
Lemma malformed_file_keeps_entries_before_fault :
  let w := startup {[ history_file session_id := file_with_faulty_entry ]} in
  malformed file_with_faulty_entry
  ∧ store w !! session_id = None
  ∧ disk w !! history_file session_id = Some file_with_faulty_entry
  ∧ history_of session_id w = [HumanMessage (Text "hi")]
  ∧ history_of session_id w ≠ [].
Proof.
  intros w. split; [|repeat split; done].
  intros H. apply Forall_cons_1 in H as [_ H]. apply Forall_cons_1 in H as [H _].
  destruct H as (fields & ty & c & [= <-] & _ & Hc). done.
Qed.

(** C9 (as stated) fails: both entries are objects with a "type" and a
    "content", one typed "human" and one typed "ai", yet the first call
    loads neither: the number is not content a message can hold, the
    constructor raises, and the load ends there. *)
Lemma unusable_content_ends_the_load :
  let w := startup {[ history_file session_id
                      := Json (JArr file_with_numeric_content) ]} in
  Forall has_type_and_content file_with_numeric_content
  ∧ store w !! session_id = None
  ∧ disk w !! history_file session_id
    = Some (Json (JArr file_with_numeric_content))
  ∧ load_history (Json (JArr file_with_numeric_content)) []
    = ([], Some (mk_exn ValueError "ValidationError: content"))
  ∧ history_of session_id w = []
  ∧ history_of session_id w ≠ [AIMessage (Text "hello")].
Proof.
  intros w. split; [|repeat split; done].
  repeat apply Forall_cons_2; [..|apply Forall_nil_2];
    eexists _, _, _; (split; [reflexivity|]); split; reflexivity.
Qed.

(** C6 (as stated) fails: for the unsupported path ingestion returns the
    very value it returns when a parser is missing, so what it returns is
    no failure marked as an unsupported format. *)
Lemma unsupported_format_returns_the_value_of_other_failures :
  (∀ ext, ext ∈ supported_extensions → ¬ has_extension "report.xlsx" ext)
  ∧ failure_condition parser_missing "report.xlsx" = Some UnsupportedFormat
  ∧ failure_condition parser_missing "cv.docx" = Some ParserUnavailable
  ∧ (load_and_process_document parser_missing "report.xlsx" grounded_world).2
    = (load_and_process_document parser_missing "cv.docx" grounded_world).2.
Proof.
  split; [by apply select_loader_none|]. repeat split; reflexivity.
Qed.

Lemma unsupported_extension_sample :
  (∀ ext, ext ∈ supported_extensions → ¬ has_extension "report.xlsx" ext)
  ∧ (load_and_process_document quota_services "report.xlsx" grounded_world).2 = None
  ∧ same_state grounded_world
      (load_and_process_document quota_services "report.xlsx" grounded_world).1.
Proof.
  assert (∀ ext, ext ∈ supported_extensions → ¬ has_extension "report.xlsx" ext)
    as Hext by (by apply select_loader_none).
  split; [exact Hext|].
  destruct (unsupported_extension_rejected_without_effect
              quota_services "report.xlsx" grounded_world Hext)
    as (Hnone & _ & _ & Hsame & _).
  split; [exact Hnone | exact Hsame].
Defined.

Lemma context_sample :
  invoke (retriever_holder grounded_world) "what is in it?" = Ok two_chunks
  ∧ dynamic_retrieval "what is in it?" grounded_world
    = Ok ("first chunk" +:+ nl +:+ nl +:+ "second chunk").
Proof.
  split; [reflexivity|].
  apply (context_is_retrieved_chunks_joined
           answering session_id "what is in it?" grounded_world two_chunks).
  reflexivity.
Defined.

Lemma cache_sample :
  let ops := [History "a"; Save Written "a"; History "b"; History "a"] in
  wf (startup ∅) ∧ unshared (startup ∅)
  ∧ store (run ops (startup ∅)) !! "a" = Some 0
  ∧ store (run ops (startup ∅)) !! "b" = Some 1
  ∧ wf (run ops (startup ∅)) ∧ unshared (run ops (startup ∅)).
Proof.
  intros ops. split; [apply wf_startup|]. split; [apply unshared_startup|].
  split; [reflexivity|]. split; [reflexivity|].
  apply (store_caches_one_transcript_per_session ops (startup ∅));
    [apply wf_startup | apply unshared_startup].
Defined.

Lemma system_entry_sample :
  let w := startup {[ history_file session_id := Json (JArr file_with_system_entry) ]} in
  Forall has_usable_content file_with_system_entry
  ∧ history_of session_id w
    = [HumanMessage (Text "hi"); AIMessage (Text "hello")].
Proof.
  intros w.
  assert (Forall has_usable_content file_with_system_entry) as Hwf.
  { repeat apply Forall_cons_2; [..|apply Forall_nil_2];
      eexists _, _, _; (split; [reflexivity|]);
      (split; [reflexivity|]); (split; [reflexivity|]);
      intros _; eexists; reflexivity. }
  split; [exact Hwf|].
  exact (proj1 (first_history_loads_human_and_ai_entries
                  w session_id file_with_system_entry eq_refl eq_refl Hwf)).
Defined.

Lemma load_command_sample :
  let here p := String.eqb p "notes.txt" in
  retriever_holder (load_command here quota_services "notes.txt" grounded_world)
  = DummyRetriever
  ∧ retriever_holder (load_command here quota_services "gone.txt" grounded_world)
    = sample_retriever.
Proof.
  intros here. split.
  - apply (load_command_failure_resets_missing_file_keeps
             here quota_services "notes.txt" grounded_world); reflexivity.
  - apply (load_command_failure_resets_missing_file_keeps
             here quota_services "gone.txt" grounded_world). reflexivity.
Defined.

(** ** Further properties: the session files *)

Section files.
Implicit Types (w : World) (sid : string) (l : loc) (T : list Message).

(** After a first history call the store names the new object, whose
    messages are the transcript shown; the disk is as it was. *)
Lemma get_session_history_lookup_miss w sid :
  store w !! sid = None →
  store (get_session_history sid w).1 !! sid = Some (get_session_history sid w).2
  ∧ messages (get_session_history sid w).1 (get_session_history sid w).2
    = history_of sid w
  ∧ disk (get_session_history sid w).1 = disk w.
Proof.
  intros Hs. rewrite history_of_eq.
  destruct (get_session_history_miss w sid Hs)
    as (T & w' & E & Hst & _ & Hdisk & _).
  rewrite E. simpl. rewrite Hst. split; [apply lookup_insert_eq|done].
Qed.

Lemma save_written_disk w sid l :
  store w !! sid = Some l →
  disk (save_session_history Written sid w)
  = <[history_file sid := Json (JArr (serialize <$> messages w l))]> (disk w).
Proof. unfold save_session_history. by intros ->. Qed.

(** The transcript shown for a session depends on its entry in the store,
    on the history objects and on its own file, and on nothing else. *)
Lemma history_of_ext w1 w2 sid :
  store w1 !! sid = store w2 !! sid →
  heap w1 = heap w2 →
  disk w1 !! history_file sid = disk w2 !! history_file sid →
  history_of sid w1 = history_of sid w2.
Proof.
  intros Hs Hh Hd. destruct (store w2 !! sid) as [l|] eqn:E.
  - rewrite (history_of_cached w1 _ l), (history_of_cached w2 _ l) by done.
    unfold messages. by rewrite Hh.
  - rewrite !history_of_miss by done. by rewrite Hd.
Qed.

(** What a process started on the disk [d] shows for a session. *)
Lemma history_of_startup d sid :
  history_of sid (startup d)
  = match d !! history_file sid with
    | Some f => (load_history f []).1
    | None => []
    end.
Proof. by rewrite history_of_miss. Qed.

Lemma history_after_save_written w sid l :
  store w !! sid = Some l →
  history_of sid (startup (disk (save_session_history Written sid w)))
  = messages w l.
Proof.
  intros Hs. rewrite history_of_startup, (save_written_disk _ _ _ Hs).
  rewrite lookup_insert_eq. simpl. by rewrite replay_serialize.
Qed.

End files.

(** X2: for a session with no file and no entry in the store, the first
    history call gives an empty transcript, and a save that completes
    right after it creates the file with an empty array. *)
Theorem new_session_is_empty_and_saved_as_empty_array w sid :
  store w !! sid = None →
  disk w !! history_file sid = None →
  history_of sid w = []
  ∧ disk (save_session_history Written sid (get_session_history sid w).1)
      !! history_file sid
    = Some (Json (JArr [])).
Proof.
  intros Hs Hd. split; [by rewrite history_of_miss, Hd|].
  destruct (get_session_history_miss w sid Hs)
    as (T & w' & E & Hst & Hh & Hdisk & _ & _ & HT).
  rewrite Hd in HT. subst T. rewrite E. simpl.
  rewrite (save_written_disk w' sid (length (heap w)))
    by (rewrite Hst; apply lookup_insert_eq).
  rewrite lookup_insert_eq. unfold messages.
  rewrite Hh, lookup_app_r by lia. by rewrite Nat.sub_diag.
Qed.

(** X3: a history call followed by a save that completes rewrites the
    session file as the array of the messages that were loaded, whatever
    the file held; a process started afterwards loads the same transcript
    from the rewritten file, and a file that a save wrote is rewritten
    unchanged. *)
Theorem load_then_save_normalises_the_file w sid f :
  store w !! sid = None →
  disk w !! history_file sid = Some f →
  let w1 := save_session_history Written sid (get_session_history sid w).1 in
  disk w1 = <[history_file sid := Json (JArr (serialize <$> history_of sid w))]> (disk w)
  ∧ history_of sid (startup (disk w1)) = history_of sid w
  ∧ ∀ T, f = Json (JArr (serialize <$> T)) → disk w1 = disk w.
Proof.
  intros Hs Hd w1.
  destruct (get_session_history_lookup_miss w sid Hs) as (Hst & Hm & Hdisk).
  assert (disk w1
          = <[history_file sid := Json (JArr (serialize <$> history_of sid w))]> (disk w))
    as Hw1.
  { subst w1. rewrite (save_written_disk _ _ _ Hst). by rewrite Hm, Hdisk. }
  split; [exact Hw1|]. split.
  - rewrite history_of_startup, Hw1, lookup_insert_eq. simpl.
    by rewrite replay_serialize.
  - intros T ->. rewrite Hw1. apply insert_id.
    rewrite Hd, (history_of_miss _ _ Hs), Hd. simpl.
    by rewrite replay_serialize.
Qed.

Section more_files.
Implicit Types (w : World) (sid : string) (l : loc) (T : list Message).

Lemma replay_error_free entries T :
  (replay entries T).2 = None ↔ Forall (λ e, entry_ok e = true) entries.
Proof.
  revert T. induction entries as [|e entries IH]; intros T; simpl.
  - split; [by constructor|done].
  - destruct (entry_ok e) eqn:He.
    + rewrite (replay_entry_ok _ _ He), IH. split.
      * by constructor.
      * by intros [_ ?]%Forall_cons_1.
    + destruct (replay_entry_not_ok e T He) as [x ->]. simpl. split; [done|].
      intros [H _]%Forall_cons_1. congruence.
Qed.

Lemma length_sound_prefix entries :
  length (omap entry_message (sound_prefix entries)) ≤ length entries.
Proof.
  induction entries as [|e entries IH]; [done|].
  cbn [sound_prefix length]. destruct (entry_ok e); [|simpl; lia].
  change (omap entry_message (e :: sound_prefix entries))
    with (match entry_message e with
          | Some m => m :: omap entry_message (sound_prefix entries)
          | None => omap entry_message (sound_prefix entries)
          end).
  destruct (entry_message e); cbn [length]; lia.
Qed.

Lemma history_of_ext_at w1 w2 sid :
  store w1 !! sid = store w2 !! sid →
  (∀ l, store w2 !! sid = Some l → heap w1 !! l = heap w2 !! l) →
  disk w1 !! history_file sid = disk w2 !! history_file sid →
  history_of sid w1 = history_of sid w2.
Proof.
  intros Hs Hh Hd. destruct (store w2 !! sid) as [l|] eqn:E.
  - rewrite (history_of_cached w1 _ l), (history_of_cached w2 _ l) by done.
    unfold messages. by rewrite (Hh l).
  - rewrite !history_of_miss by done. by rewrite Hd.
Qed.

(** What a turn of [main] on [sid] does to the entries and the objects of
    other sessions: nothing. *)
Lemma chat_turn_elsewhere llm wr sid q w :
  wf w → unshared w →
  ∀ sid', sid' ≠ sid →
    store (chat_turn llm wr sid q w) !! sid' = store w !! sid'
    ∧ (∀ l', store w !! sid' = Some l' →
         heap (chat_turn llm wr sid q w) !! l' = heap w !! l').
Proof.
  intros Hwf Hun sid' Hne.
  pose proof (get_session_history_lookup w sid Hwf) as [Hl _].
  pose proof (get_session_history_unshared w sid Hwf Hun) as Hun1.
  assert (store (get_session_history sid w).1 !! sid' = store w !! sid') as Hst.
  { destruct (store w !! sid) as [l0|] eqn:Hs.
    - by rewrite (get_session_history_cached _ _ _ Hs).
    - destruct (get_session_history_miss w sid Hs) as (T & w' & E & Hst' & _).
      rewrite E. simpl. rewrite Hst'. by rewrite lookup_insert_ne. }
  unfold chat_turn. rewrite conversational_rag_chain_eq. simpl.
  destruct (full_rag_chain _ _ _ _) as [answer|e]; simpl.
  - rewrite save_session_history_store, save_session_history_heap. simpl.
    split; [exact Hst|].
    intros l' Hl'.
    destruct (get_session_history_keeps w sid sid' l' Hwf Hl') as [Hs1 Hh1].
    rewrite list_lookup_insert_ne; [exact Hh1|].
    intros E. apply Hne. symmetry. apply (Hun1 sid sid' l'); [|done].
    by rewrite <- E.
  - split; [exact Hst|].
    intros l' Hl'. by apply (get_session_history_keeps w sid sid' l' Hwf Hl').
Qed.

End more_files.

(** X4: a save that completes replaces the whole session file: what the
    file held before has no influence on what it holds afterwards, and
    saving twice is saving once. *)
Theorem save_replaces_the_whole_file w sid l :
  store w !! sid = Some l →
  (∀ f, disk (save_session_history Written sid
                (set_disk (λ d, <[history_file sid := f]> d) w))
        = disk (save_session_history Written sid w))
  ∧ save_session_history Written sid (save_session_history Written sid w)
    = save_session_history Written sid w.
Proof.
  intros Hs. split.
  - intros f. rewrite !(save_written_disk _ _ l) by done. simpl.
    by rewrite insert_insert_eq.
  - unfold save_session_history at 1. rewrite save_session_history_store, Hs.
    unfold messages. rewrite save_session_history_heap.
    unfold save_session_history. rewrite Hs. unfold set_disk, messages. simpl.
    by rewrite insert_insert_eq.
Qed.

(** X5: while an array is loaded an exception is raised and swallowed
    exactly when one of its entries is faulty (not an object, no "type",
    or a human/ai entry without "content" or with content a message
    cannot hold); and whatever the file holds, no more messages are
    loaded than the array has entries. *)
Theorem load_swallows_an_exception_iff_an_entry_is_faulty entries :
  ((load_history (Json (JArr entries)) []).2 = None
   ↔ Forall (λ e, entry_ok e = true) entries)
  ∧ length (load_history (Json (JArr entries)) []).1 ≤ length entries.
Proof.
  split; [apply replay_error_free|].
  rewrite load_history_recovered. apply length_sound_prefix.
Qed.

(** X6: a turn for one session, whatever its outcome, leaves every other
    session the store holds bound to the same history object with the same
    transcript. *)
Theorem turn_leaves_other_cached_sessions_alone llm wr sid q w sid' l' :
  wf w → unshared w → sid' ≠ sid →
  store w !! sid' = Some l' →
  store (chat_turn llm wr sid q w) !! sid' = Some l'
  ∧ history_of sid' (chat_turn llm wr sid q w) = history_of sid' w.
Proof.
  intros Hwf Hun Hne Hl'.
  destruct (chat_turn_elsewhere llm wr sid q w Hwf Hun sid' Hne) as (Hs & Hh).
  split; [by rewrite Hs|].
  rewrite (history_of_cached _ _ l') by (by rewrite Hs).
  rewrite (history_of_cached _ _ l') by done.
  unfold messages. by rewrite (Hh l').
Qed.

(** ** Further properties: the loop of [main] *)

Section loop.
Implicit Types (w : World) (sid q : string) (l : loc) (c : command).

(** The transcript of the session after the chain ran: grown by the
    exchange when it answered, as before when it raised. *)
Lemma conversational_rag_chain_history llm sid q w :
  wf w →
  history_of sid (conversational_rag_chain llm sid q w).1
  = match (conversational_rag_chain llm sid q w).2 with
    | Ok answer =>
        history_of sid w ++ [HumanMessage (Text q); AIMessage (Text answer)]
    | Raise _ => history_of sid w
    end.
Proof.
  intros Hwf. rewrite conversational_rag_chain_eq. simpl.
  destruct (get_session_history_lookup w sid Hwf) as [Hs Hl].
  destruct (full_rag_chain _ _ _ _) as [a|e]; simpl.
  - rewrite (add_messages_history _ _ _ _ Hs Hl). by rewrite history_of_eq.
  - rewrite !history_of_eq. by rewrite get_session_history_idem.
Qed.

Lemma chat_turn_retriever llm wr sid q w :
  retriever_holder (chat_turn llm wr sid q w) = retriever_holder w.
Proof.
  unfold chat_turn. rewrite conversational_rag_chain_eq. simpl.
  destruct (full_rag_chain _ _ _ _); simpl;
    by rewrite ?save_session_history_retriever; simpl;
       rewrite get_session_history_retriever.
Qed.

Lemma load_command_history path_exists svc p w sid :
  history_of sid (load_command path_exists svc p w) = history_of sid w.
Proof.
  destruct (load_command_same_sessions path_exists svc p w) as (Hs & Hh & Hd).
  apply history_of_ext; by rewrite ?Hs, ?Hd.
Qed.

Lemma loop_body_wf w c :
  wf w → unshared w → wf (loop_body w c) ∧ unshared (loop_body w c).
Proof.
  intros Hwf Hun. destruct c as [path_exists svc p|llm wr q]; simpl.
  - destruct (load_command_same_sessions path_exists svc p w) as (Hs & Hh & _).
    unfold wf, unshared. by rewrite Hs, ?Hh.
  - by apply chat_turn_wf.
Qed.

Lemma loop_body_prefix w c :
  wf w →
  history_of session_id w `prefix_of` history_of session_id (loop_body w c).
Proof.
  intros Hwf. destruct c as [path_exists svc p|llm wr q]; simpl.
  - by rewrite load_command_history.
  - rewrite chat_turn_history, conversational_rag_chain_history by done.
    destruct (conversational_rag_chain _ _ _ _).2; [by eexists|done].
Qed.

Lemma loop_prefix cs w :
  wf w → unshared w →
  history_of session_id w
    `prefix_of` history_of session_id (foldl loop_body w cs).
Proof.
  revert w. induction cs as [|c cs IH]; intros w Hwf Hun; simpl; [done|].
  destruct (loop_body_wf w c Hwf Hun) as [Hwf' Hun'].
  etrans; [by apply (loop_body_prefix w c)|by apply IH].
Qed.

Lemma in_step_uncached w :
  store w !! session_id = None → in_step w.
Proof.
  intros Hs. unfold in_step. apply history_of_ext_at; simpl; try done.
  intros l. by rewrite Hs.
Qed.

Lemma in_step_after_save w :
  in_step (save_session_history Written session_id w).
Proof.
  destruct (store w !! session_id) as [l|] eqn:Hs.
  - unfold in_step. rewrite (history_after_save_written _ _ _ Hs).
    rewrite (history_of_cached _ _ l) by (by rewrite save_session_history_store).
    unfold messages. by rewrite save_session_history_heap.
  - rewrite (save_session_history_absent _ _ _ Hs). by apply in_step_uncached.
Qed.

Lemma in_step_print line w : in_step w → in_step (print line w).
Proof.
  unfold in_step. simpl. intros ->. by apply history_of_ext.
Qed.

Lemma loop_body_in_step w c :
  wf w → writes_complete c → in_step w → in_step (loop_body w c).
Proof.
  intros Hwf Hc Hin. destruct c as [path_exists svc p|llm wr q]; simpl in *.
  - destruct (load_command_same_sessions path_exists svc p w) as (_ & _ & Hd).
    unfold in_step. by rewrite load_command_history, Hd.
  - subst wr. unfold chat_turn.
    destruct (conversational_rag_chain llm session_id q w) as [w1 [a|e]] eqn:E.
    + apply in_step_print, in_step_after_save.
    + do 2 apply in_step_print.
      pose proof (conversational_rag_chain_history llm session_id q w Hwf) as Hh.
      rewrite E in Hh. simpl in Hh. unfold in_step. rewrite Hh.
      assert (disk w1 = disk w) as ->; [|done].
      revert E. rewrite conversational_rag_chain_eq. simpl.
      destruct (full_rag_chain _ _ _ _); [done|]. intros [= <- _].
      apply get_session_history_disk.
Qed.

End loop.

(** X7: while [main] runs, the transcript of its session only grows at the
    end: what it holds at any point of the loop is a prefix of what it
    holds at any later point. *)
Theorem transcript_only_grows_at_the_end d cs1 cs2 :
  history_of session_id (foldl loop_body (startup d) cs1)
    `prefix_of` history_of session_id (foldl loop_body (startup d) (cs1 ++ cs2)).
Proof.
  rewrite foldl_app. destruct (loop_invariant d cs1) as [Hwf Hun].
  by apply loop_prefix.
Qed.

(** X8: as long as every save completes, the disk is in step with the
    process after every pass of the loop: a process started on the disk as
    it is then would show the transcript the running process shows. *)
Theorem disk_in_step_after_every_pass d cs :
  Forall writes_complete cs →
  history_of session_id (startup (disk (foldl loop_body (startup d) cs)))
  = history_of session_id (foldl loop_body (startup d) cs).
Proof.
  intros Hcs.
  assert (∀ w, wf w → unshared w → in_step w → in_step (foldl loop_body w cs)) as H.
  { induction Hcs as [|c cs Hc _ IH]; intros w Hwf Hun Hin; [done|]. simpl.
    destruct (loop_body_wf w c Hwf Hun) as [Hwf' Hun'].
    apply IH; [done..|]. by apply loop_body_in_step. }
  apply H; [apply wf_startup | apply unshared_startup |].
  by apply in_step_uncached.
Qed.

Section exit.
Implicit Types (w : World) (o eof : Outside) (stdin : list (string * Outside)).

Lemma is_quit_eqb user_input :
  String.eqb (lower user_input) "quit" || String.eqb (lower user_input) "exit" = true
  ↔ is_quit user_input.
Proof.
  unfold is_quit. rewrite orb_true_iff, !String.eqb_eq. done.
Qed.

Lemma loop_pass_quit normpath user_input o w :
  is_quit user_input →
  loop_pass normpath user_input o w
  = Break (quit_command (o_write o) session_id w).
Proof.
  intros H%is_quit_eqb. unfold loop_pass. by rewrite H.
Qed.

Lemma loop_pass_continue normpath user_input o w :
  ¬ is_quit user_input →
  ∃ c, loop_pass normpath user_input o w = Continue (loop_body w c).
Proof.
  intros H. unfold loop_pass.
  destruct (_ || _) eqn:E; [by apply is_quit_eqb in E|].
  destruct (startswith _ _).
  - by eexists (Load _ _ _).
  - by eexists (Ask _ _ _).
Qed.

(** However the input goes, the loop is left through the quit branch,
    under the outside world of a quit line or of the end of input. *)
Lemma repl_leaves_by_quit normpath stdin eof w :
  ∃ o w0,
    repl normpath stdin eof w = quit_command (o_write o) session_id w0
    ∧ (o = eof ∨ ∃ line, (line, o) ∈ stdin ∧ is_quit line).
Proof.
  revert w. induction stdin as [|[line o] stdin IH]; intros w; cbn [repl].
  - exists eof, (write_prompt w). split; [|by left].
    by rewrite (loop_pass_quit normpath "quit" eof) by (by left).
  - destruct (decide (is_quit line)) as [Hq|Hq].
    + rewrite (loop_pass_quit _ _ _ _ Hq). exists o, (write_prompt w).
      split; [done|]. right. exists line. split; [left|done].
    + destruct (loop_pass_continue normpath line o (write_prompt w) Hq) as [c ->].
      destruct (IH (loop_body (write_prompt w) c)) as (o' & w0 & -> & Ho).
      exists o', w0. split; [done|].
      destruct Ho as [->|(line' & Hin & Hq')]; [by left|].
      right. exists line'. split; [by right|done].
Qed.

End exit.

(** X9: when the save made on the way out completes, [main] leaves the
    disk in step with the transcript it held at the end, however its
    earlier saves went: a later run shows that transcript. *)
Theorem main_leaves_disk_in_step environ normpath d stdin eof :
  o_write eof = Written →
  (∀ line o, (line, o) ∈ stdin → is_quit line → o_write o = Written) →
  history_of session_id (startup (disk (main environ normpath d stdin eof)))
  = history_of session_id (main environ normpath d stdin eof).
Proof.
  intros Heof Hquit. unfold main. case_bool_decide.
  - destruct (repl_leaves_by_quit normpath stdin eof (startup d))
      as (o & w0 & -> & Ho).
    assert (o_write o = Written) as ->.
    { destruct Ho as [->|(line & Hin & Hq)]; [done|]. by apply (Hquit line). }
    apply in_step_print, in_step_after_save.
  - by apply in_step_uncached.
Qed.

(** X11: a line that reads quit or exit, in any letter case, ends the
    run: the lines after it are never handled. *)
Theorem nothing_is_read_after_quit normpath pre line o post eof eof' w :
  is_quit line →
  repl normpath (pre ++ (line, o) :: post) eof w
  = repl normpath (pre ++ [(line, o)]) eof' w.
Proof.
  intros Hq. revert w.
  induction pre as [|[line0 o0] pre IH]; intros w; cbn [repl app].
  - by rewrite !(loop_pass_quit _ _ _ _ Hq).
  - destruct (loop_pass normpath line0 o0 (write_prompt w)); [apply IH|done].
Qed.

(** X12: the end of input acts as a typed quit: running out of lines and
    reading one more line that says quit give the same final world. *)
Theorem end_of_input_is_quit normpath stdin eof eof' w :
  repl normpath stdin eof w = repl normpath (stdin ++ [("quit", eof)]) eof' w.
Proof.
  revert w. induction stdin as [|[line0 o0] stdin IH]; intros w; cbn [repl app].
  - by rewrite !(loop_pass_quit normpath "quit") by (by left).
  - destruct (loop_pass normpath line0 o0 (write_prompt w)); [apply IH|done].
Qed.

Example lower_samples :
  lower "QuIt" = "quit" ∧ lower "/LOAD A.PDF" = "/load a.pdf" ∧ lower "exit!" = "exit!".
Proof. repeat split; reflexivity. Qed.

Example strip_samples :
  strip "  docs/a b.txt  " = "docs/a b.txt" ∧ strip "   " = "" ∧ strip "" = "".
Proof. repeat split; reflexivity. Qed.

Example split_once_samples :
  split_once "/load my file.txt" = ["/load"; "my file.txt"]
  ∧ split_once "/load" = ["/load"]
  ∧ split_once " x" = [""; "x"].
Proof. repeat split; reflexivity. Qed.

Example loop_pass_samples :
  loop_pass id "EXIT" calm (startup ∅)
  = Break (quit_command Written session_id (startup ∅))
  ∧ loop_pass id "/load" calm (startup ∅)
    = Continue (chat_turn answering Written session_id "/load" (startup ∅))
  ∧ loop_pass id " quit" calm (startup ∅)
    = Continue (chat_turn answering Written session_id " quit" (startup ∅)).
Proof. repeat split; reflexivity. Qed.

Section dispatch.
Implicit Types (w : World) (o : Outside) (c : Ascii.ascii).

Local Abbreviation space := (Ascii.ascii_of_nat 32).

Lemma lower_char_space c : lower_char c = space → c = space.
Proof.
  destruct c as [[] [] [] [] [] [] [] []]; vm_compute; intros H;
    first [reflexivity | discriminate H].
Qed.

Lemma lower_char_not_space c x :
  x = lower_char c → x ≠ space → Ascii.eqb c space = false.
Proof.
  intros -> Hx. destruct (Ascii.eqb_spec c space) as [->|]; [|done].
  by destruct Hx.
Qed.

End dispatch.

(** X13: when the line, lowercased, starts with "/load " the path given
    to [os.path.normpath] is the rest of the line as typed, letter case
    kept, with the white space around it removed; the line is handled as
    a load command and never reaches the chat model. *)
Theorem load_path_is_the_rest_of_the_line normpath user_input o w :
  startswith (lower user_input) "/load " = true →
  loop_pass normpath user_input o w
  = Continue (load_command (o_exists o) (o_services o)
                (normpath (strip (drop_chars 6 user_input))) w).
Proof.
  intros H. unfold loop_pass. rewrite H.
  destruct (_ || _) eqn:E.
  { apply is_quit_eqb in E as [E|E]; rewrite E in H; vm_compute in H;
      discriminate H. }
  clear E. destruct user_input as [|c0 [|c1 [|c2 [|c3 [|c4 [|c5 rest]]]]]];
    cbn [lower startswith] in H; rewrite ?andb_false_r in H;
    try discriminate H.
  apply andb_true_iff in H as [H0%Ascii.eqb_eq H].
  apply andb_true_iff in H as [H1%Ascii.eqb_eq H].
  apply andb_true_iff in H as [H2%Ascii.eqb_eq H].
  apply andb_true_iff in H as [H3%Ascii.eqb_eq H].
  apply andb_true_iff in H as [H4%Ascii.eqb_eq H].
  apply andb_true_iff in H as [H5%Ascii.eqb_eq _].
  symmetry in H5. apply lower_char_space in H5. subst c5.
  cbn [drop_chars split_once].
  rewrite (lower_char_not_space c0 _ H0), (lower_char_not_space c1 _ H1),
    (lower_char_not_space c2 _ H2), (lower_char_not_space c3 _ H3),
    (lower_char_not_space c4 _ H4) by done.
  reflexivity.
Qed.

Lemma asks_keep_retriever cs w :
  Forall is_ask cs →
  retriever_holder (foldl loop_body w cs) = retriever_holder w.
Proof.
  intros Hcs. revert w. induction Hcs as [|c cs Hc _ IH]; intros w; [done|].
  simpl. rewrite IH. destruct c; [done|]. apply chat_turn_retriever.
Qed.

(** X14: after a /load, and until the next one, the context of every
    question is decided by the outcome of that load alone: the chunks of
    the new retriever when ingestion gave one, the empty string when the
    file exists and ingestion failed, and what it was before the load when
    the file is missing. *)
Theorem context_after_load path_exists svc p w q cs :
  Forall is_ask cs →
  dynamic_retrieval q (foldl loop_body (load_command path_exists svc p w) cs)
  = if path_exists p then
      match (load_and_process_document svc p w).2 with
      | Some r => docs ← invoke r q; mret (format_docs docs)
      | None => Ok ""
      end
    else dynamic_retrieval q w.
Proof.
  intros Hcs. unfold dynamic_retrieval at 1. rewrite asks_keep_retriever by done.
  unfold load_command, dynamic_retrieval.
  destruct (path_exists p); simpl; [|done].
  by destruct (load_and_process_document svc p w) as [w1 [r|]].
Qed.

(** X15: questions never change the retriever: over any run of chat
    turns, answered or failed, saved or not, the holder keeps the retriever
    the last /load left in it. *)
Theorem questions_keep_the_retriever cs w :
  Forall is_ask cs →
  retriever_holder (foldl loop_body w cs) = retriever_holder w.
Proof. apply asks_keep_retriever. Qed.

(** X16: the chat model is shown the earlier exchange: after a turn that
    was answered, the prompt of the next turn of the session holds, in
    order, the system message, the transcript as it was before the first
    turn, the first question, its answer, and the new question. *)
Theorem next_prompt_holds_the_previous_exchange
    llm1 llm2 wr sid q1 q2 w answer docs :
  wf w →
  (conversational_rag_chain llm1 sid q1 w).2 = Ok answer →
  invoke (retriever_holder w) q2 = Ok docs →
  (conversational_rag_chain llm2 sid q2 (chat_turn llm1 wr sid q1 w)).2
  = llm2 (SystemMessage (system_text +:+ format_docs docs)
            :: (ChatMessage <$> history_of sid w)
            ++ [ChatMessage (HumanMessage (Text q1));
                ChatMessage (AIMessage (Text answer));
                ChatMessage (HumanMessage (Text q2))]).
Proof.
  intros Hwf Hok Hdocs. rewrite conversational_rag_chain_eq. simpl.
  rewrite (full_rag_chain_eq llm2 q2 _ _ docs)
    by (by rewrite get_session_history_retriever, chat_turn_retriever).
  rewrite chat_turn_history, conversational_rag_chain_history, Hok by done.
  unfold prompt. simpl. rewrite fmap_app, <- app_assoc. simpl.
  by destruct (llm2 _).
Qed.

(** ** Further properties: ingestion *)

Section loaders.
Implicit Types (w : World) (svc : Services) (p : string) (cls : loader_class).

Lemma append_assoc s t u : (s +:+ t) +:+ u = s +:+ (t +:+ u).
Proof.
  induction s as [|a s IH]; [done|].
  change (String a ((s +:+ t) +:+ u) = String a (s +:+ (t +:+ u))).
  by rewrite IH.
Qed.

Lemma snoc_last_char x y a b :
  x +:+ String a "" = y +:+ String b "" → a = b.
Proof.
  revert y. induction x as [|c x IH]; intros [|d y] H.
  - by injection H.
  - change (String a "" = String d (y +:+ String b "")) in H.
    injection H as _ H. by destruct y.
  - change (String c (x +:+ String a "") = String b "") in H.
    injection H as _ H. by destruct x.
  - change (String c (x +:+ String a "") = String d (y +:+ String b "")) in H.
    injection H as _ H. by apply (IH y).
Qed.

Lemma extension_exclusive p cls1 cls2 :
  has_extension p (extension_of cls1) →
  has_extension p (extension_of cls2) →
  cls1 = cls2.
Proof.
  intros [s1 H1] [s2 H2]. rewrite H1 in H2. clear H1.
  destruct cls1, cls2; try reflexivity; exfalso; simpl in H2;
    repeat match type of H2 with
    | context [?s +:+ ".pdf"] =>
        change (s +:+ ".pdf") with (s +:+ (".pd" +:+ "f")) in H2
    | context [?s +:+ ".txt"] =>
        change (s +:+ ".txt") with (s +:+ (".tx" +:+ "t")) in H2
    | context [?s +:+ ".docx"] =>
        change (s +:+ ".docx") with (s +:+ (".doc" +:+ "x")) in H2
    | context [?s +:+ ".csv"] =>
        change (s +:+ ".csv") with (s +:+ (".cs" +:+ "v")) in H2
    end;
    rewrite <- !append_assoc in H2; apply snoc_last_char in H2;
    discriminate H2.
Qed.

Lemma select_loader_extension p cls :
  select_loader p = Some cls ↔ has_extension p (extension_of cls).
Proof.
  split.
  - unfold select_loader.
    destruct (endswith p ".pdf") eqn:E1;
      [intros [= <-]; by apply endswith_has_extension|].
    destruct (endswith p ".txt") eqn:E2;
      [intros [= <-]; by apply endswith_has_extension|].
    destruct (endswith p ".docx") eqn:E3;
      [intros [= <-]; by apply endswith_has_extension|].
    destruct (endswith p ".csv") eqn:E4;
      [intros [= <-]; by apply endswith_has_extension|done].
  - intros H. unfold select_loader.
    destruct (endswith p ".pdf") eqn:E1.
    { f_equal. apply (extension_exclusive p); [|done].
      by apply endswith_has_extension. }
    destruct (endswith p ".txt") eqn:E2.
    { f_equal. apply (extension_exclusive p); [|done].
      by apply endswith_has_extension. }
    destruct (endswith p ".docx") eqn:E3.
    { f_equal. apply (extension_exclusive p); [|done].
      by apply endswith_has_extension. }
    destruct (endswith p ".csv") eqn:E4.
    { f_equal. apply (extension_exclusive p); [|done].
      by apply endswith_has_extension. }
    apply endswith_has_extension in H. destruct cls; simpl in H; congruence.
Qed.

(** The tests of the ImportError handler on a path whose loader is known. *)
Lemma select_loader_endswith p cls :
  select_loader p = Some cls →
  ∀ cls', endswith p (extension_of cls') = true ↔ cls' = cls.
Proof.
  intros H%select_loader_extension cls'. split.
  - intros E'%endswith_has_extension. by apply (extension_exclusive p).
  - intros ->. by apply endswith_has_extension.
Qed.

End loaders.

(** X17: a loader class is chosen exactly for the paths that end in its
    extension: .pdf, .txt, .docx and .csv select the PDF, text, Word and
    CSV loader and nothing else does; the order of the tests plays no
    part, since no path ends in two of the extensions. *)
Theorem loader_is_chosen_by_extension p cls :
  (select_loader p = Some cls ↔ has_extension p (extension_of cls))
  ∧ ∀ cls', has_extension p (extension_of cls) →
            has_extension p (extension_of cls') → cls = cls'.
Proof.
  split; [apply select_loader_extension|].
  intros cls'. apply extension_exclusive.
Qed.

(** X18: ingestion returns a retriever exactly when the extension is
    supported and loading, splitting (asked for chunks of 1000 characters
    overlapping by 200), making the embedding client and building the
    index all succeed; the retriever is then the one of the index built,
    and what was printed is the loading line and the number of chunks. *)
Theorem ingestion_succeeds_when_every_step_does svc p w :
  (∀ cls docs splits search,
     select_loader p = Some cls →
     load svc cls p = Ok docs →
     split_documents svc 1000 200 docs = Ok splits →
     embeddings svc = Ok () →
     from_documents svc splits = Ok search →
     load_and_process_document svc p w
     = (print ("Document split into " +:+ pretty (length splits) +:+ " chunks.")
          (print ("Loading document from: " +:+ p +:+ "...") w),
        Some (VectorStoreRetriever search)))
  ∧ (∀ r, (load_and_process_document svc p w).2 = Some r →
       ∃ cls docs splits search,
         select_loader p = Some cls
         ∧ load svc cls p = Ok docs
         ∧ split_documents svc 1000 200 docs = Ok splits
         ∧ embeddings svc = Ok ()
         ∧ from_documents svc splits = Ok search
         ∧ r = VectorStoreRetriever search).
Proof.
  split.
  - intros cls docs splits search Hsel Hload Hsplit Hemb Hidx.
    unfold load_and_process_document, process.
    by rewrite Hsel, Hload, Hsplit, Hemb, Hidx.
  - intros r. unfold load_and_process_document, process.
    destruct (select_loader p) as [cls|]; [|done].
    destruct (load svc cls p) as [docs|e] eqn:Hload; simpl;
      [|by destruct (exn_cls e)].
    destruct (split_documents svc 1000 200 docs) as [splits|e] eqn:Hsplit; simpl;
      [|by destruct (exn_cls e)].
    destruct (embeddings svc) as [[]|e] eqn:Hemb; simpl;
      [|by destruct (exn_cls e)].
    destruct (from_documents svc splits) as [search|e] eqn:Hidx; simpl;
      [|by destruct (exn_cls e)].
    intros [= <-]. by exists cls, docs, splits, search.
Qed.

(** X19: ingestion, whether it succeeds or fails, only prints: the store,
    the history objects, the disk and the retriever holder are as before,
    what had been printed is still there followed first by the loading
    line, and the value returned does not depend on the world it ran in. *)
Theorem ingestion_only_prints svc p w :
  same_state w (load_and_process_document svc p w).1
  ∧ (∃ rest, stdout (load_and_process_document svc p w).1
             = stdout w ++ ("Loading document from: " +:+ p +:+ "...") :: rest)
  ∧ ∀ w', (load_and_process_document svc p w').2
          = (load_and_process_document svc p w).2.
Proof.
  split; [apply load_and_process_document_report|]. split.
  - unfold load_and_process_document.
    set (loading := "Loading document from: " +:+ p +:+ "...").
    destruct (select_loader p) as [cls|]; simpl.
    2:{ eexists [_]. by rewrite <- app_assoc. }
    destruct (process_report svc cls p (print loading w)) as (_ & _ & Hout).
    destruct (process svc cls p (print loading w)) as [w1 r]; simpl in *.
    assert (∃ pre, stdout w1 = stdout w ++ loading :: pre) as [pre Hpre].
    { destruct Hout as [->|[n ->]]; [by exists []|].
      eexists [_]. by rewrite <- app_assoc. }
    destruct r as [retriever|e]; simpl; [by eexists|].
    destruct (exn_cls e); simpl.
    1:{ destruct (on_import_error_report e p w1) as (_ & rest & ->).
        rewrite Hpre, <- app_assoc. by eexists. }
    all: destruct (on_exception_report e w1) as (_ & rest & -> & _);
      rewrite Hpre, <- app_assoc; by eexists.
  - intros w'. unfold load_and_process_document.
    destruct (select_loader p) as [cls|]; [|done]. simpl.
    pose proof (process_report svc cls p
                  (print ("Loading document from: " +:+ p +:+ "...") w)) as (H1 & _).
    pose proof (process_report svc cls p
                  (print ("Loading document from: " +:+ p +:+ "...") w')) as (H2 & _).
    destruct (process svc cls p (print _ w)) as [w1 r1].
    destruct (process svc cls p (print _ w')) as [w2 r2].
    simpl in *. subst r1 r2.
    destruct (ingestion svc cls p) as [?|e]; [done|]. by destruct (exn_cls e).
Qed.

(** X20: when a module is missing (ImportError), the install hint printed
    last follows the extension of the path before the text of the error:
    a .pdf or .csv path always gets the pypdf hint, a .docx path gets the
    unstructured hint unless the error names PyPDFLoader, and a .txt path
    gets a hint only if the error names one of the two loaders, and
    otherwise the error text itself. *)
Theorem missing_module_hint_follows_extension svc p w cls e :
  select_loader p = Some cls →
  ingestion svc cls p = Raise e →
  exn_cls e = ImportError →
  last (stdout (load_and_process_document svc p w).1)
  = Some match cls with
         | PyPDFLoader | CSVLoader => "Please run: pip install pypdf"
         | UnstructuredWordDocumentLoader =>
             if contains (exn_str e) "PyPDFLoader"
             then "Please run: pip install pypdf"
             else "Please run: pip install unstructured[docx]"
         | TextLoader =>
             if contains (exn_str e) "PyPDFLoader"
             then "Please run: pip install pypdf"
             else if contains (exn_str e) "UnstructuredWordDocumentLoader"
             then "Please run: pip install unstructured[docx]"
             else "An ImportError occurred: " +:+ exn_str e +:+
                  ". Check if you have all required document parser libraries installed."
         end.
Proof.
  intros Hsel Hraise Hcls.
  pose proof (select_loader_endswith p cls Hsel) as Hend.
  assert (endswith p ".pdf" = true ↔ PyPDFLoader = cls) as Hpdf
    by apply (Hend PyPDFLoader).
  assert (endswith p ".docx" = true ↔ UnstructuredWordDocumentLoader = cls) as Hdocx
    by apply (Hend UnstructuredWordDocumentLoader).
  assert (endswith p ".csv" = true ↔ CSVLoader = cls) as Hcsv
    by apply (Hend CSVLoader).
  unfold load_and_process_document. rewrite Hsel.
  pose proof (process_report svc cls p
                (print ("Loading document from: " +:+ p +:+ "...") w)) as (Hres & _).
  destruct (process svc cls p _) as [w1 r]. simpl in Hres. subst r.
  rewrite Hraise, Hcls. simpl. unfold on_import_error.
  destruct (endswith p ".pdf") eqn:E1, (endswith p ".docx") eqn:E2,
           (endswith p ".csv") eqn:E3, cls;
    try (by destruct Hpdf as [H _]; discriminate (H eq_refl));
    try (by destruct Hdocx as [H _]; discriminate (H eq_refl));
    try (by destruct Hcsv as [H _]; discriminate (H eq_refl));
    try (by destruct Hpdf as [_ H]; discriminate (H eq_refl));
    try (by destruct Hdocx as [_ H]; discriminate (H eq_refl));
    try (by destruct Hcsv as [_ H]; discriminate (H eq_refl));
    rewrite ?orb_true_r, ?orb_false_r;
    repeat (destruct (contains (exn_str e) _)); simpl; apply last_snoc.
Qed.

Section context.
Implicit Types (docs : list Document).

Lemma join_cons_cons sep x y rest :
  join sep (x :: y :: rest) = x +:+ sep +:+ join sep (y :: rest).
Proof. done. Qed.

Lemma join_app sep (l1 l2 : list string) :
  l1 ≠ [] → l2 ≠ [] →
  join sep (l1 ++ l2) = join sep l1 +:+ sep +:+ join sep l2.
Proof.
  intros H1 H2. destruct l2 as [|y l2]; [done|]. clear H2.
  induction l1 as [|x [|x' l1] IH]; [done|done|].
  change ((x :: x' :: l1) ++ y :: l2) with (x :: x' :: (l1 ++ y :: l2)).
  rewrite !join_cons_cons.
  change (x' :: (l1 ++ y :: l2)) with ((x' :: l1) ++ y :: l2).
  rewrite IH by done. by rewrite !append_assoc.
Qed.

End context.

(** X21: the context of two batches of chunks put one after the other is
    the context of the first, a blank line, and the context of the second:
    the separator stands between chunks only, never before the first or
    after the last. *)
Theorem context_of_appended_chunks docs1 docs2 :
  docs1 ≠ [] → docs2 ≠ [] →
  format_docs (docs1 ++ docs2)
  = format_docs docs1 +:+ (nl +:+ nl) +:+ format_docs docs2.
Proof.
  unfold format_docs. intros H1 H2. rewrite fmap_app.
  apply join_app; by destruct docs1, docs2.
Qed.

(** X22: a run of [main] in which nothing was asked writes no session
    file: the quit at the end finds no entry for the session and leaves the
    disk as the run found it. *)
Theorem run_without_questions_writes_nothing d cs wr :
  Forall (λ c, ¬ is_ask c) cs →
  disk (run_main d cs wr) = d ∧ store (run_main d cs wr) = ∅.
Proof.
  intros Hcs. unfold run_main, quit_command.
  assert (∀ w, store (foldl loop_body w cs) = store w
               ∧ disk (foldl loop_body w cs) = disk w) as H.
  { induction Hcs as [|c cs Hc _ IH]; intros w; [done|]. simpl.
    destruct (IH (loop_body w c)) as [-> ->].
    destruct c as [path_exists svc p|]; [|by destruct Hc]. simpl.
    by destruct (load_command_same_sessions path_exists svc p w) as (-> & _ & ->). }
  destruct (H (startup d)) as [Hs Hd].
  rewrite save_session_history_absent by (by rewrite Hs).
  simpl. by rewrite Hs, Hd.
Qed.

(** X23: what a turn of [main] prints: when the chain answers, the answer
    after "Gemini: ", then the report of the save if the save failed, then
    the separator; when the chain raises, the error text and the advice
    to try again, and no separator. *)
Theorem turn_prints_answer_or_error llm wr sid q w :
  printed_by w (chat_turn llm wr sid q w)
  = match (conversational_rag_chain llm sid q w).2 with
    | Ok response =>
        ["Gemini: " +:+ response]
        ++ match wr with
           | Written => []
           | OpenFails e | DumpFails e =>
               ["Error saving history to file: " +:+ exn_str e]
           end
        ++ [mul "-" 60]
    | Raise e =>
        ["An error occurred during chat: " +:+ exn_str e;
         "Please try your question again or check your API key/network connection."]
    end.
Proof.
  apply printed_by_app. unfold chat_turn.
  rewrite conversational_rag_chain_eq. simpl.
  assert (stdout (get_session_history sid w).1 = stdout w) as Hout.
  { unfold get_session_history. by destruct (store w !! sid). }
  assert (is_Some (store (get_session_history sid w).1 !! sid)) as [l Hl].
  { destruct (store w !! sid) as [l0|] eqn:Hs.
    - rewrite (get_session_history_cached _ _ _ Hs). by eexists.
    - destruct (get_session_history_miss w sid Hs) as (T & w' & E & Hst & _).
      rewrite E. simpl. rewrite Hst, lookup_insert_eq. by eexists. }
  destruct (full_rag_chain _ _ _ _) as [response|e]; simpl.
  - unfold save_session_history. simpl. rewrite Hl.
    destruct wr; simpl; rewrite Hout, <- ?app_assoc; done.
  - rewrite Hout, <- app_assoc. done.
Qed.

(** X24: questions and answers stay paired: if the transcript the session
    starts from is a sequence of exchanges (as when there is no session
    file), it is one after every pass of the loop, so no question is ever
    stored without its answer. *)
Theorem transcript_stays_paired d cs :
  paired (history_of session_id (startup d)) →
  paired (history_of session_id (foldl loop_body (startup d) cs)).
Proof.
  assert (∀ w, wf w → unshared w → paired (history_of session_id w) →
               paired (history_of session_id (foldl loop_body w cs))) as H.
  { induction cs as [|c cs IH]; intros w Hwf Hun Hp; [done|]. simpl.
    destruct (loop_body_wf w c Hwf Hun) as [Hwf' Hun'].
    apply IH; [done..|].
    destruct c as [path_exists svc p|llm wr q]; simpl.
    - by rewrite load_command_history.
    - rewrite chat_turn_history, conversational_rag_chain_history by done.
      destruct (conversational_rag_chain _ _ _ _).2 as [answer|e]; [|done].
      destruct Hp as [exchanges ->]. exists (exchanges ++ [(q, answer)]).
      by rewrite bind_app. }
  apply H; [apply wf_startup | apply unshared_startup].
Qed.

(** ** The further statements at sample inputs *)

Lemma new_session_sample :
  history_of session_id (startup ∅) = []
  ∧ disk (save_session_history Written session_id
            (get_session_history session_id (startup ∅)).1)
      !! history_file session_id
    = Some (Json (JArr [])).
Proof.
  exact (new_session_is_empty_and_saved_as_empty_array
           (startup ∅) session_id eq_refl eq_refl).
Defined.

Lemma normalise_sample :
  let w := startup {[ history_file session_id := file_with_faulty_entry ]} in
  let w1 := save_session_history Written session_id
              (get_session_history session_id w).1 in
  disk w1 !! history_file session_id
  = Some (Json (JArr [serialize (HumanMessage (Text "hi"))]))
  ∧ history_of session_id (startup (disk w1)) = [HumanMessage (Text "hi")].
Proof.
  intros w w1. split; [reflexivity|].
  exact (proj1 (proj2 (load_then_save_normalises_the_file
                         w session_id file_with_faulty_entry eq_refl eq_refl))).
Defined.

Lemma save_twice_sample :
  store grounded_world !! session_id = Some 0
  ∧ save_session_history Written session_id
      (save_session_history Written session_id grounded_world)
    = save_session_history Written session_id grounded_world.
Proof.
  split; [reflexivity|].
  exact (proj2 (save_replaces_the_whole_file
                  grounded_world session_id 0 eq_refl)).
Defined.

Lemma other_session_sample :
  let w := (get_session_history "other"
              (startup {[ history_file "other" := file_with_faulty_entry ]})).1 in
  "other" ≠ session_id
  ∧ store w !! "other" = Some 0
  ∧ history_of "other" (chat_turn answering Written session_id "hi" w)
    = [HumanMessage (Text "hi")].
Proof.
  intros w.
  assert ("other" ≠ session_id) as Hne by (intros H; discriminate H).
  split; [exact Hne|]. split; [reflexivity|].
  exact (proj2 (turn_leaves_other_cached_sessions_alone
                  answering Written session_id "hi" w "other" 0
                  (get_session_history_wf _ "other" (wf_startup _))
                  (get_session_history_unshared _ "other"
                     (wf_startup _) (unshared_startup _))
                  Hne eq_refl)).
Defined.

Lemma in_step_sample :
  let cs := [Ask answering Written "hi";
             Load (λ _, true) quota_services "notes.txt";
             Ask unreachable Written "and then?"] in
  Forall writes_complete cs
  ∧ history_of session_id (startup (disk (foldl loop_body (startup ∅) cs)))
    = [HumanMessage (Text "hi"); AIMessage (Text "hello")].
Proof.
  intros cs.
  assert (Forall writes_complete cs) as Hcs by (repeat constructor).
  split; [exact Hcs|].
  exact (disk_in_step_after_every_pass ∅ cs Hcs).
Defined.

Lemma main_in_step_sample :
  let stdin := [("hi", stormy); ("again", calm)] in
  o_write calm = Written
  ∧ history_of session_id
      (startup (disk (main {["GOOGLE_API_KEY"]} id ∅ stdin calm)))
    = [HumanMessage (Text "again"); AIMessage (Text "hello")].
Proof.
  intros stdin. split; [reflexivity|].
  assert (∀ line o, (line, o) ∈ stdin → is_quit line → o_write o = Written) as H.
  { intros line o Hin [Hq|Hq]; subst stdin;
      repeat (apply elem_of_cons in Hin as [[= -> ->]|Hin]; [discriminate Hq|]);
      by apply elem_of_nil in Hin. }
  exact (main_leaves_disk_in_step {["GOOGLE_API_KEY"]} id ∅ stdin calm eq_refl H).
Defined.

Lemma quit_sample :
  is_quit "QuIt"
  ∧ repl id [("hi", calm); ("QuIt", calm); ("more", calm)] stormy (startup ∅)
    = repl id [("hi", calm); ("QuIt", calm)] calm (startup ∅).
Proof.
  assert (is_quit "QuIt") as Hq by (left; reflexivity).
  split; [exact Hq|].
  exact (nothing_is_read_after_quit id [("hi", calm)] "QuIt" calm
           [("more", calm)] stormy calm (startup ∅) Hq).
Defined.

Lemma load_path_sample :
  startswith (lower "/LOAD  Docs/Report.PDF ") "/load " = true
  ∧ loop_pass id "/LOAD  Docs/Report.PDF " calm (startup ∅)
    = Continue (load_command (o_exists calm) (o_services calm)
                  "Docs/Report.PDF" (startup ∅)).
Proof.
  split; [reflexivity|].
  exact (load_path_is_the_rest_of_the_line
           id "/LOAD  Docs/Report.PDF " calm (startup ∅) eq_refl).
Defined.

Lemma context_after_load_sample :
  let cs := [Ask answering Written "hi"] in
  Forall is_ask cs
  ∧ dynamic_retrieval "what is in it?"
      (foldl loop_body
         (load_command (o_exists calm) (o_services calm) "notes.txt" (startup ∅))
         cs)
    = Ok ("first chunk" +:+ nl +:+ nl +:+ "second chunk").
Proof.
  intros cs. assert (Forall is_ask cs) as Hcs by (repeat constructor).
  split; [exact Hcs|].
  exact (context_after_load (o_exists calm) (o_services calm) "notes.txt"
           (startup ∅) "what is in it?" cs Hcs).
Defined.

Lemma keep_retriever_sample :
  let cs := [Ask answering Written "hi"; Ask unreachable Written "still there?"] in
  Forall is_ask cs
  ∧ retriever_holder (foldl loop_body grounded_world cs) = sample_retriever.
Proof.
  intros cs. assert (Forall is_ask cs) as Hcs by (repeat constructor).
  split; [exact Hcs|].
  exact (questions_keep_the_retriever cs grounded_world Hcs).
Defined.

Lemma next_prompt_sample :
  (conversational_rag_chain (λ prompt, Ok (pretty (length prompt))) session_id
     "second" (chat_turn answering Written session_id "first" (startup ∅))).2
  = Ok "4".
Proof.
  exact (next_prompt_holds_the_previous_exchange
           answering (λ prompt, Ok (pretty (length prompt))) Written session_id
           "first" "second" (startup ∅) "hello" []
           (wf_startup ∅) eq_refl eq_refl).
Defined.

Lemma loader_sample :
  select_loader "data/table.csv" = Some CSVLoader
  ∧ has_extension "data/table.csv" ".csv".
Proof.
  split; [reflexivity|].
  exact (proj1 (proj1 (loader_is_chosen_by_extension "data/table.csv" CSVLoader))
           eq_refl).
Defined.

Lemma ingestion_success_sample :
  (load_and_process_document (o_services calm) "notes.txt" (startup ∅)).2
  = Some sample_retriever
  ∧ printed_by (startup ∅)
      (load_and_process_document (o_services calm) "notes.txt" (startup ∅)).1
    = ["Loading document from: notes.txt..."; "Document split into 2 chunks."].
Proof.
  rewrite (proj1 (ingestion_succeeds_when_every_step_does
                    (o_services calm) "notes.txt" (startup ∅))
             TextLoader two_chunks two_chunks (λ _, Ok two_chunks)
             eq_refl eq_refl eq_refl eq_refl eq_refl).
  split; reflexivity.
Defined.

Lemma missing_module_sample :
  last (stdout (load_and_process_document parser_missing "cv.docx" (startup ∅)).1)
  = Some "Please run: pip install unstructured[docx]".
Proof.
  exact (missing_module_hint_follows_extension parser_missing "cv.docx" (startup ∅)
           UnstructuredWordDocumentLoader
           (mk_exn ImportError "No module named 'docx'")
           eq_refl eq_refl eq_refl).
Defined.

Lemma appended_chunks_sample :
  format_docs (two_chunks ++ two_chunks)
  = format_docs two_chunks +:+ (nl +:+ nl) +:+ format_docs two_chunks.
Proof.
  apply (context_of_appended_chunks two_chunks two_chunks); discriminate.
Defined.

Lemma no_question_sample :
  let cs := [Load (λ _, true) quota_services "notes.txt"] in
  Forall (λ c, ¬ is_ask c) cs
  ∧ disk (run_main ∅ cs Written) = ∅.
Proof.
  intros cs.
  assert (Forall (λ c, ¬ is_ask c) cs) as Hcs
    by (repeat constructor; intros H; exact H).
  split; [exact Hcs|].
  exact (proj1 (run_without_questions_writes_nothing ∅ cs Written Hcs)).
Defined.

Lemma paired_sample :
  let cs := [Ask answering Written "hi"; Ask unreachable Written "lost";
             Ask answering Written "bye"] in
  paired (history_of session_id (startup ∅))
  ∧ paired (history_of session_id (foldl loop_body (startup ∅) cs)).
Proof.
  intros cs.
  assert (paired (history_of session_id (startup ∅))) as Hp by (by exists []).
  split; [exact Hp|].
  exact (transcript_stays_paired ∅ cs Hp).
Defined.
